(** * The income fluctuation problem solved by time iteration

    A shallow embedding of [ifp_advanced_code.ipynb]: the class [IFP]
    (cell 2), the Euler residual [euler_diff] (cell 3), the operator [K]
    (cell 8) and the driver [solve_model] (cell 10), followed by the
    properties of the specification that concern them.

    Conventions of the embedding.
    - A [float64] is an element of [R]: rounding, overflow, [inf] and [nan]
      are not represented.  [c ** (-γ)] is [Rpower c (- γ)] and [np.exp] is
      [exp].  [Rpower] and the division of [R] are total where the source is
      not: [c ** (-γ)] is [inf] or [nan] for [c <= 0], and dividing by
      [len(η_draws) * len(ζ_draws)] raises [ZeroDivisionError] when there
      are no draws.  The real-valued definitions stand for the source only
      on positive consumption and with at least one draw; a theorem that
      asserts a value of the residual carries these as hypotheses.
    - A one-dimensional array is a [list R], a two-dimensional array is the
      list of its rows.  Reads inside [@njit] code are not bounds-checked by
      the source; an index outside the array reads [0] here.  Writes in plain
      Python raise [IndexError] when out of range.
    - Python exceptions are the [Raise] branch of [result].
    - [IFP] is a [@jitclass], so [np.random.seed] and [np.random.randn] in
      its constructor act on the generator of the compiled code (Numba's
      own), not on NumPy's global one.  The state of that generator is the
      stream of standard normal draws it is about to deliver. *)

From Stdlib Require Import Reals Lra Lia List ZArith Bool PeanoNat.
Import ListNotations.
Open Scope R_scope.

(** ** Exceptions *)

Inductive exn : Type :=
| ValueError
| IndexError
| ZeroDivisionError
| UnboundLocalError
| OutOfFuel. (* not a Python exception: the recursion budget of a modelled
                [while] loop ran out *)

Inductive result (A : Type) : Type :=
| Ok (a : A)
| Raise (e : exn).
Arguments Ok {A} a.
Arguments Raise {A} e.

Definition bind {A B : Type} (m : result A) (k : A -> result B) : result B :=
  match m with
  | Ok a => k a
  | Raise e => Raise e
  end.

Notation "x <- m ;; k" := (bind m (fun x => k))
  (at level 61, m at next level, right associativity).
Notation "' p <- m ;; k" := (bind m (fun x => let p := x in k))
  (at level 61, p pattern, m at next level, right associativity).

(** ** The parts of NumPy the notebook uses *)

Module np.

Definition ndarray1 := list R.
Definition ndarray2 := list (list R).

(** [np.linspace(start, stop, num)]: [num] evenly spaced samples with both
    end points; a single sample is [start]; a negative [num] is refused. *)
Definition linspace (start stop : R) (num : Z) : result ndarray1 :=
  if (num <? 0)%Z then Raise ValueError
  else
    let n := Z.to_nat num in
    let div := (n - 1)%nat in
    let step := (stop - start) / INR div in
    Ok (map (fun i => if (0 <? div)%nat then start + INR i * step
                      else start)
            (seq 0 n)).

(** [np.ones((n, m))]. *)
Definition ones (n m : nat) : ndarray2 := repeat (repeat 1 m) n.

(** [arr[:, z]] read as a vector. *)
Definition column (z : nat) (arr : ndarray2) : ndarray1 :=
  map (fun row => nth z row 0) arr.

(** [l[k] = v] on a Python sequence: [None] when [k] is out of range. *)
Fixpoint list_set {A : Type} (k : nat) (v : A) (l : list A)
  : option (list A) :=
  match l, k with
  | [], _ => None
  | _ :: l', O => Some (v :: l')
  | x :: l', S k' =>
      match list_set k' v l' with
      | Some l'' => Some (x :: l'')
      | None => None
      end
  end.

(** [arr[i, z] = v]. *)
Definition setitem (arr : ndarray2) (i z : nat) (v : R) : result ndarray2 :=
  match nth_error arr i with
  | None => Raise IndexError
  | Some row =>
      match list_set z v row with
      | None => Raise IndexError
      | Some row' =>
          match list_set i row' arr with
          | Some arr' => Ok arr'
          | None => Raise IndexError
          end
      end
  end.

(** [arr[:, z] = col] for a vector [col] as long as [arr] has rows (the
    only use the notebook makes of it). *)
Fixpoint set_column (z : nat) (col : ndarray1) (arr : ndarray2)
  : result ndarray2 :=
  match arr, col with
  | [], [] => Ok []
  | row :: arr', v :: col' =>
      match list_set z v row with
      | None => Raise IndexError
      | Some row' =>
          rest <- set_column z col' arr' ;;
          Ok (row' :: rest)
      end
  | _, _ => Raise ValueError
  end.

(** [x - y] on arrays of one shape (broadcasting is not used by the
    notebook and is refused here). *)
Fixpoint sub1 (x y : ndarray1) : result ndarray1 :=
  match x, y with
  | [], [] => Ok []
  | u :: x', v :: y' => r <- sub1 x' y' ;; Ok (u - v :: r)
  | _, _ => Raise ValueError
  end.

Fixpoint sub (x y : ndarray2) : result ndarray2 :=
  match x, y with
  | [], [] => Ok []
  | u :: x', v :: y' =>
      r0 <- sub1 u v ;;
      r <- sub x' y' ;;
      Ok (r0 :: r)
  | _, _ => Raise ValueError
  end.

(** [np.abs]. *)
Definition abs (x : ndarray2) : ndarray2 := map (map Rabs) x.

(** [np.max] of the flattened array; an empty array has no maximum. *)
Definition max (x : ndarray2) : result R :=
  match concat x with
  | [] => Raise ValueError
  | v :: vs => Ok (fold_left Rmax vs v)
  end.

(** The generator that compiled code draws from: the draws it will deliver
    next. *)
Definition rng := nat -> R.

(** [np.random.randn(n)]: the next [n] draws, consumed from the
    generator. *)
Definition randn (n : Z) (g : rng) : result (ndarray1 * rng) :=
  if (n <? 0)%Z then Raise ValueError
  else
    let k := Z.to_nat n in
    Ok (map g (seq 0 k), fun j => g (k + j)%nat).

End np.

(** ** Externally supplied numerical routines *)

(** Modelled from the spec: [interp] is imported from the external package
    [interpolation], whose code is not part of the notebook.  Following
    sections 4.1 and 8 of the specification, [interp grid col a] is the
    piecewise-linear function through the points [(grid[i], col[i])]; on the
    segment between two adjacent nodes it is the linear blend
    [col[i] + (a - grid[i]) / (grid[i+1] - grid[i]) * (col[i+1] - col[i])],
    and beyond either end of the grid the nearest edge segment is extended
    (no clamping).  At a node the stored value is returned. *)
Fixpoint interp (grid col : np.ndarray1) (a : R) : R :=
  match grid, col with
  | x0 :: ((x1 :: grid2) as grid1), y0 :: ((y1 :: _) as col1) =>
      match grid2 with
      | [] => y0 + (a - x0) / (x1 - x0) * (y1 - y0)
      | _ :: _ =>
          if Rlt_dec a x1 then y0 + (a - x0) / (x1 - x0) * (y1 - y0)
          else interp grid1 col1 a
      end
  | [_], [y0] => y0
  | _, _ => 0
  end.

(** ** Cell 2: the class [IFP] *)

Module IFP.

Record t : Type := mk {
  γ : R;                     (* utility parameter *)
  β : R;                     (* discount factor *)
  P : np.ndarray2;           (* transition probabilities for z_t *)
  σ_vec : np.ndarray1;       (* shock scale parameters for R_t *)
  s : R;                     (* shock scale parameter for Y_t *)
  a_grid : np.ndarray1;      (* grid over asset values *)
  η_draws : np.ndarray1;     (* draws of innovation η for MC *)
  ζ_draws : np.ndarray1      (* draws of innovation ζ for MC *)
}.

(** Marginal utility.  The source gives [inf] at [c = 0] and [nan] for
    [c < 0]; [Rpower] stands for it on [c > 0] only. *)
Definition u_prime (self : t) (c : R) : R := Rpower c (- γ self).

Definition Y (self : t) (η : R) : R := exp (s self * η).

Definition R (self : t) (z : nat) (ζ : Rdefinitions.R) : Rdefinitions.R :=
  exp (nth z (σ_vec self) 0 * ζ).

Section Init.

(** [seeded k] is the state of the generator right after
    [np.random.seed(k)]. *)
Variable seeded : Z -> np.rng.

(** [IFP(γ, β, P, σ_vec, s, shock_draw_size, grid_max, grid_size)],
    run while the generator of the compiled code is in state [g]; the
    generator's new state is returned with the instance.  NumPy's global
    generator is not involved. *)
Definition __init__ (g : np.rng)
    (γ β : Rdefinitions.R) (P : np.ndarray2) (σ_vec : np.ndarray1)
    (s : Rdefinitions.R) (shock_draw_size : Z)
    (grid_max : Rdefinitions.R) (grid_size : Z)
  : result (t * np.rng) :=
  let g := seeded 1234 in                      (* np.random.seed(1234) *)
  '(η_draws, g) <- np.randn shock_draw_size g ;;
  '(ζ_draws, g) <- np.randn shock_draw_size g ;;
  a_grid <- np.linspace 0 grid_max grid_size ;;
  Ok (mk γ β P σ_vec s a_grid η_draws ζ_draws, g).

End Init.

End IFP.

(** The defaults of the constructor's keyword arguments. *)
Definition default_γ : R := 2.5.
Definition default_β : R := 0.96.
Definition default_P : np.ndarray2 := [[0.8; 0.2]; [0.7; 0.3]].
Definition default_σ_vec : np.ndarray1 := [0.0; 0.5].
Definition default_s : R := 0.5.
Definition default_shock_draw_size : Z := 400.
Definition default_grid_max : R := 10.
Definition default_grid_size : Z := 20.

(** ** Cell 3: the Euler residual *)

(** [P[z, z_hat]]. *)
Definition getitem2 (arr : np.ndarray2) (i j : nat) : R :=
  nth j (nth i arr []) 0.

(** One pass of the innermost loop body: the term added to [Ez]. *)
Definition euler_term (t : R) (c_vec : np.ndarray2) (a : R) (z : nat)
    (ifp : IFP.t) (z_hat : nat) (η ζ : R) : R :=
  let c := fun a z => interp (IFP.a_grid ifp) (np.column z c_vec) a in
  let R_hat := IFP.R ifp z_hat ζ in
  let Y_hat := IFP.Y ifp η in
  R_hat * IFP.u_prime ifp (c (R_hat * (a - t) + Y_hat) z_hat)
  * getitem2 (IFP.P ifp) z z_hat.

(** The three nested [for] loops accumulating into [Ez]. *)
Definition euler_loops (t : R) (c_vec : np.ndarray2) (a : R) (z : nat)
    (ifp : IFP.t) : R :=
  fold_left (fun Ez z_hat =>
    fold_left (fun Ez η =>
      fold_left (fun Ez ζ =>
        Ez + euler_term t c_vec a z ifp z_hat η ζ)
        (IFP.ζ_draws ifp) Ez)
      (IFP.η_draws ifp) Ez)
    [0%nat; 1%nat] 0.

(** With no draws the source raises [ZeroDivisionError] at the division
    below; the value defined here stands for the source when
    [ifp.η_draws] is not empty. *)
Definition euler_diff (t : R) (c_vec : np.ndarray2) (a : R) (z : nat)
    (ifp : IFP.t) : R :=
  (* Simplify names *)
  let η_draws := IFP.η_draws ifp in
  let ζ_draws := IFP.η_draws ifp in   (* as in the source: ifp.η_draws *)
  let β := IFP.β ifp in
  (* Compute expectation on right hand side by Monte Carlo *)
  let Ez := euler_loops t c_vec a z ifp in
  let Ez := Ez / (INR (length η_draws) * INR (length ζ_draws)) in
  IFP.u_prime ifp t - Rmax (β * Ez) (IFP.u_prime ifp a).


(** ** Cells 4 and 10: the initial guess *)

(** A [for] loop whose body may raise: [for x in xs: s = body(x, s)]. *)
Fixpoint for_each {A S : Type} (xs : list A) (body : A -> S -> result S)
    (s : S) : result S :=
  match xs with
  | [] => Ok s
  | x :: xs' => s' <- body x s ;; for_each xs' body s'
  end.

(** Initial guess of [c_vec]: consume all assets. *)
Definition c_init (ifp : IFP.t) : result np.ndarray2 :=
  let n := length (IFP.a_grid ifp) in
  let c_init := np.ones n 2 in
  for_each [0%nat; 1%nat]
    (fun z c_init => np.set_column z (IFP.a_grid ifp) c_init)
    c_init.

(** ** Cells 8 and 10: the operator [K] and the driver *)

(** What [solve_model] prints. *)
Inductive line : Type :=
| ErrorAtIteration (i : nat) (error : R)  (* Error at iteration i is error. *)
| FailedToConverge                        (* Failed to converge! *)
| ConvergedIn (i : nat).                  (* Converged in i iterations. *)

(** The local variables of [solve_model] that the loop changes, and what
    has been printed so far.  [c_new] is unbound until the body has run. *)
Record locals : Type := mk_locals {
  i : nat;
  error : R;
  c : np.ndarray2;
  c_new : option np.ndarray2;
  stdout : list line
}.

Section Solver.

(** [brentq f a b maxiter] stands for
    [brentq(f, a, b, args=..., maxiter=maxiter, disp=False).root], the
    bracketed root finder of [quantecon.optimize.root_finding]; its code is
    not part of the notebook.  It returns a root estimate or raises. *)
Variable brentq : (R -> R) -> R -> R -> nat -> result R.

(** The operator K: the updated consumption policy values on the grid
    pairs (a, z).  [np.empty_like(c_vec)] has the shape of [c_vec] and
    arbitrary contents, for which the contents of [c_vec] stand here; every
    cell is overwritten when [c_vec] has shape (len(a_grid), 2). *)
Definition K (c_vec : np.ndarray2) (ifp : IFP.t) : result np.ndarray2 :=
  let c_new := c_vec in
  for_each (seq 0 (length (IFP.a_grid ifp)))
    (fun i c_new =>
       let a := nth i (IFP.a_grid ifp) 0 in
       for_each [0%nat; 1%nat]
         (fun z c_new =>
            c_star <- brentq (fun t => euler_diff t c_vec a z ifp)
                             1e-10 a 12 ;;
            np.setitem c_new i z c_star)
         c_new)
    c_new.

Section Driver.

Variable ifp : IFP.t.
Variable tol : R.
Variable max_iter : nat.
Variable verbose : bool.
Variable print_skip : nat.

(** One pass through the body of the [while] loop. *)
Definition loop_body (st : locals) : result locals :=
  c_new <- K (c st) ifp ;;
  d <- np.sub (c st) c_new ;;
  error <- np.max (np.abs d) ;;
  let i := S (i st) in
  out <- (if verbose then
            if (print_skip =? 0)%nat then Raise ZeroDivisionError
            else if (i mod print_skip =? 0)%nat
                 then Ok (stdout st ++ [ErrorAtIteration i error])
                 else Ok (stdout st)
          else Ok (stdout st)) ;;
  Ok (mk_locals i error c_new (Some c_new) out).

(** [i < max_iter and error > tol]. *)
Definition loop_test (st : locals) : bool :=
  (i st <? max_iter)%nat && (if Rlt_dec tol (error st) then true else false).

(** [while i < max_iter and error > tol: ...], unrolled at most [fuel]
    times. *)
Fixpoint while_loop (fuel : nat) (st : locals) : result locals :=
  if loop_test st then
    match fuel with
    | O => Raise OutOfFuel
    | S fuel' => st' <- loop_body st ;; while_loop fuel' st'
    end
  else Ok st.

(** The locals when the loop is left. *)
Definition solve_loop : result locals :=
  c_init <- c_init ifp ;;
  while_loop max_iter (mk_locals 0 (tol + 1) c_init None []).

(** [solve_model(ifp, tol, max_iter, verbose, print_skip)]: the returned
    array and the printed lines. *)
Definition solve_model : result (np.ndarray2 * list line) :=
  st <- solve_loop ;;
  let out := stdout st in
  let out := if (i st =? max_iter)%nat then out ++ [FailedToConverge]
             else out in
  let out := if verbose && (i st <? max_iter)%nat
             then out ++ [ConvergedIn (i st)] else out in
  match c_new st with
  | Some c_new => Ok (c_new, out)
  | None => Raise UnboundLocalError
  end.

End Driver.

(** A whole session: construct the model with the generator in state [g],
    then solve it; the returned policy array. *)
Definition construct_and_solve (seeded : Z -> np.rng) (g : np.rng)
    (γ β : R) (P : np.ndarray2) (σ_vec : np.ndarray1) (s : R)
    (shock_draw_size : Z) (grid_max : R) (grid_size : Z)
    (tol : R) (max_iter : nat) (verbose : bool) (print_skip : nat)
  : result np.ndarray2 :=
  '(ifp, _) <- IFP.__init__ seeded g γ β P σ_vec s shock_draw_size
                 grid_max grid_size ;;
  '(c_star, _) <- solve_model ifp tol max_iter verbose print_skip ;;
  Ok c_star.

End Solver.

(** ** The residual as the specification words it (section 4.2) *)

Definition Rsum (l : list R) : R := fold_right Rplus 0 l.

(** The income-state set Z: the indices of the square matrix [P]. *)
Definition states (ifp : IFP.t) : list nat := seq 0 (length (IFP.P ifp)).

(** [u'(x) = x^(-γ)]. *)
Definition spec_u' (ifp : IFP.t) (x : R) : R := Rpower x (- IFP.γ ifp).

(** [R(z,ζ) = exp(σ_vec[z]·ζ)]. *)
Definition spec_R (ifp : IFP.t) (z : nat) (ζ : R) : R :=
  exp (nth z (IFP.σ_vec ifp) 0 * ζ).

(** [Y(η) = exp(s·η)]. *)
Definition spec_Y (ifp : IFP.t) (η : R) : R := exp (IFP.s ifp * η).

(** [c_{z'}]: the interpolant of column [z'] of the previous policy. *)
Definition spec_c (ifp : IFP.t) (c_vec : np.ndarray2) (z' : nat) (x : R)
  : R :=
  interp (IFP.a_grid ifp) (np.column z' c_vec) x.

(** [E = (1/(N_η·N_ζ)) · Σ_{z'∈Z} Σ_η Σ_ζ R(z',ζ) · u'(c_{z'}(R(z',ζ)·(a−t)
    + Y(η))) · P[z,z']]. *)
Definition spec_E (t : R) (c_vec : np.ndarray2) (a : R) (z : nat)
    (ifp : IFP.t) : R :=
  1 / (INR (length (IFP.η_draws ifp)) * INR (length (IFP.ζ_draws ifp)))
  * Rsum (map (fun z' =>
      Rsum (map (fun η =>
        Rsum (map (fun ζ =>
          spec_R ifp z' ζ
          * spec_u' ifp (spec_c ifp c_vec z'
                           (spec_R ifp z' ζ * (a - t) + spec_Y ifp η))
          * getitem2 (IFP.P ifp) z z')
          (IFP.ζ_draws ifp)))
        (IFP.η_draws ifp)))
      (states ifp)).

(** [f(t) = u'(t) - max(β·E, u'(a))]. *)
Definition spec_EulerResidual (t : R) (c_vec : np.ndarray2) (a : R)
    (z : nat) (ifp : IFP.t) : R :=
  spec_u' ifp t - Rmax (IFP.β ifp * spec_E t c_vec a z ifp) (spec_u' ifp a).

(** ** Quantities read off the code *)

(** What income state [z_hat] adds to [Ez] over the two inner loops. *)
Definition state_contribution (t : R) (c_vec : np.ndarray2) (a : R)
    (z : nat) (ifp : IFP.t) (z_hat : nat) : R :=
  Rsum (map (fun η =>
    Rsum (map (fun ζ => euler_term t c_vec a z ifp z_hat η ζ)
              (IFP.ζ_draws ifp)))
    (IFP.η_draws ifp)).

(** The residual with the normalisation the two draw sequences call for:
    [euler_diff] with [ζ_draws] bound to [ifp.ζ_draws]. *)
Definition euler_diff_two_lengths (t : R) (c_vec : np.ndarray2) (a : R)
    (z : nat) (ifp : IFP.t) : R :=
  let η_draws := IFP.η_draws ifp in
  let ζ_draws := IFP.ζ_draws ifp in
  let β := IFP.β ifp in
  let Ez := euler_loops t c_vec a z ifp in
  let Ez := Ez / (INR (length η_draws) * INR (length ζ_draws)) in
  IFP.u_prime ifp t - Rmax (β * Ez) (IFP.u_prime ifp a).

(** [np.max(np.abs(c - c_new))]. *)
Definition sup_dist (c c_new : np.ndarray2) : result R :=
  d <- np.sub c c_new ;;
  np.max (np.abs d).

(** ** Order along a vector *)

Fixpoint increasing (l : list R) : Prop :=
  match l with
  | x :: ((y :: _) as l') => x < y /\ increasing l'
  | _ => True
  end.

Fixpoint nondecreasing (l : list R) : Prop :=
  match l with
  | x :: ((y :: _) as l') => x <= y /\ nondecreasing l'
  | _ => True
  end.

(** [f] is strictly decreasing over the interval (0, a]. *)
Definition strictly_decreasing_on (f : R -> R) (a : R) : Prop :=
  forall t1 t2 : R, 0 < t1 -> t1 < t2 -> t2 <= a -> f t2 < f t1.

(** An array of [n] rows and two columns. *)
Definition has_shape (n : nat) (arr : np.ndarray2) : Prop :=
  length arr = n /\ Forall (fun row => length row = 2%nat) arr.

(** ** The solver as the specification words it (section 4.5) *)

Section SolverSpec.

Variable brentq : (R -> R) -> R -> R -> nat -> result R.
Variable ifp : IFP.t.
Variable tol : R.
Variable max_iter : nat.

(** ITERATING: [Iterating n policy error] says that [n] applications of
    PolicyOperator, started from the initial policy, have produced
    [policy], and that the last application changed the array by [error]
    in the sup norm; a further application is made only while the count is
    below the cap and the error above the tolerance. *)
Inductive Iterating : nat -> np.ndarray2 -> R -> Prop :=
| Iterating_first : forall c0 c1 e,
    c_init ifp = Ok c0 ->
    K brentq c0 ifp = Ok c1 ->
    sup_dist c0 c1 = Ok e ->
    Iterating 1 c1 e
| Iterating_next : forall n c e c' e',
    Iterating n c e ->
    (n < max_iter)%nat ->
    tol < e ->
    K brentq c ifp = Ok c' ->
    sup_dist c c' = Ok e' ->
    Iterating (S n) c' e'.

(** What holds of the locals of [solve_model] each time the loop test is
    evaluated: either nothing has been done yet, or the locals are those of
    the specification's ITERATING state. *)
Definition loop_invariant (st : locals) : Prop :=
  (i st = 0%nat /\ error st = tol + 1 /\ c_new st = None
   /\ c_init ifp = Ok (c st))
  \/ (c_new st = Some (c st) /\ (i st <= max_iter)%nat
      /\ Iterating (i st) (c st) (error st)).


End SolverSpec.

(** What the specification's Solver output carries besides the array
    (section 6): the run has a convergence flag and an iteration count that
    are functions of the value handed back. *)
Definition result_carries_flag_and_count
    (brentq : (R -> R) -> R -> R -> nat -> result R) : Prop :=
  exists (flag_of : np.ndarray2 -> bool) (count_of : np.ndarray2 -> nat),
  forall ifp tol max_iter verbose print_skip st c_star out,
    0 < tol -> (1 <= max_iter)%nat ->
    solve_loop brentq ifp tol max_iter verbose print_skip = Ok st ->
    solve_model brentq ifp tol max_iter verbose print_skip
      = Ok (c_star, out) ->
    (flag_of c_star = true <-> error st <= tol) /\ count_of c_star = i st.

(** ** Inputs used in the examples below *)

(** A generator delivering the draws 0, 1, 2, ... whatever the seed. *)
Definition counting_rng : Z -> np.rng := fun _ k => INR k.

(** A root finder that gives up at once and answers with the lower end of
    the bracket. *)
Definition lower_end : (R -> R) -> R -> R -> nat -> result R :=
  fun _ a _ _ => Ok a.

(** A root finder that answers with the upper end of the bracket. *)
Definition upper_end : (R -> R) -> R -> R -> nat -> result R :=
  fun _ _ b _ => Ok b.

(** Three income states, one draw per shock, the grid {0, 1}. *)
Definition P3 : np.ndarray2 :=
  [[/4; /4; /2]; [/4; /4; /2]; [/4; /4; /2]].

Definition ifp_three_states : IFP.t :=
  IFP.mk 2 (/2) P3 [0; 0; 0] 0 [0; 1] [INR 0] [INR 1].

(** The policy "consume one unit whatever the assets" on that grid. *)
Definition c_vec_ones : np.ndarray2 := [[1; 1; 1]; [1; 1; 1]].

(** Two income states, one draw per shock, the grid {0, 2}. *)
Definition ifp_two_states : IFP.t :=
  IFP.mk 2 (/2) [[0.8; 0.2]; [0.7; 0.3]] [0; 0] 0 [0; 2] [INR 0] [INR 1].

(** A policy that consumes less the richer the agent is. *)
Definition c_vec_falling : np.ndarray2 := [[1; 1]; [0; 0]].

(** The policy "consume all assets" on the grid {0, 2}. *)
Definition c_vec_all : np.ndarray2 := [[0; 0]; [2; 2]].

(** The policy that consumes the floor 1e-10 everywhere on that grid, and
    its sup-norm distance to "consume all assets" as [np.max] forms it. *)
Definition c_vec_floor : np.ndarray2 := [[1e-10; 1e-10]; [1e-10; 1e-10]].

Definition floor_distance : R :=
  Rmax (Rmax (Rmax (Rabs (0 - 1e-10)) (Rabs (0 - 1e-10)))
             (Rabs (2 - 1e-10)))
       (Rabs (2 - 1e-10)).

(** ** The sweep of [K] row by row *)

(** [[f(x) for x in xs]] for an [f] that may raise: the first exception
    wins. *)
Fixpoint traverse {A B : Type} (f : A -> result B) (xs : list A)
  : result (list B) :=
  match xs with
  | [] => Ok []
  | x :: xs' =>
      y <- f x ;;
      ys <- traverse f xs' ;;
      Ok (y :: ys)
  end.

(** The two roots [K] looks for at grid index [i], in the order of the
    inner loop [for z in 0, 1]. *)
Definition K_row (brentq : (R -> R) -> R -> R -> nat -> result R)
    (c_vec : np.ndarray2) (ifp : IFP.t) (i : nat) : result (list R) :=
  let a := nth i (IFP.a_grid ifp) 0 in
  r0 <- brentq (fun t => euler_diff t c_vec a 0 ifp) 1e-10 a 12%nat ;;
  r1 <- brentq (fun t => euler_diff t c_vec a 1 ifp) 1e-10 a 12%nat ;;
  Ok [r0; r1].

(** A root finder that finds no sign change and raises, as
    [brentq] does when [f(a)] and [f(b)] have one sign. *)
Definition no_bracket : (R -> R) -> R -> R -> nat -> result R :=
  fun _ _ _ _ => Raise ValueError.

(** * Properties *)

(** ** Sums and the accumulation loops *)

Lemma fold_left_accumulates (A : Type) (F : R -> A -> R) (f : A -> R)
    (l : list A) :
  (forall acc x, F acc x = acc + f x) ->
  forall acc0, fold_left F l acc0 = acc0 + Rsum (map f l).
Proof.
  intros HF. induction l as [|x l IH]; intros acc0; simpl.
  - lra.
  - rewrite IH, HF. lra.
Qed.

Lemma Rsum_app (l1 l2 : list R) : Rsum (l1 ++ l2) = Rsum l1 + Rsum l2.
Proof.
  induction l1 as [|x l1 IH]; simpl; [lra | rewrite IH; lra].
Qed.

Lemma Rsum_map_le (A : Type) (f g : A -> R) (l : list A) :
  (forall x, In x l -> f x <= g x) ->
  Rsum (map f l) <= Rsum (map g l).
Proof.
  induction l as [|x l IH]; intros H; simpl.
  - lra.
  - assert (f x <= g x) by (apply H; left; reflexivity).
    assert (Rsum (map f l) <= Rsum (map g l))
      by (apply IH; intros y Hy; apply H; right; exact Hy).
    lra.
Qed.

(** The three nested loops add up the contributions of the income states 0
    and 1, and of no other. *)
Lemma euler_loops_sum t c_vec a z ifp :
  euler_loops t c_vec a z ifp
  = state_contribution t c_vec a z ifp 0
    + state_contribution t c_vec a z ifp 1.
Proof.
  unfold euler_loops.
  rewrite (fold_left_accumulates nat _
             (state_contribution t c_vec a z ifp)).
  - simpl. lra.
  - intros acc z_hat. unfold state_contribution.
    apply (fold_left_accumulates R
             (fun Ez η => fold_left _ (IFP.ζ_draws ifp) Ez)).
    intros acc' η.
    apply (fold_left_accumulates R
             (fun Ez ζ => Ez + euler_term t c_vec a z ifp z_hat η ζ)).
    reflexivity.
Qed.

(** The term of the specification's sum is the term the loop body adds. *)
Lemma spec_term_is_euler_term t c_vec a z ifp z' η ζ :
  spec_R ifp z' ζ
  * spec_u' ifp (spec_c ifp c_vec z'
                   (spec_R ifp z' ζ * (a - t) + spec_Y ifp η))
  * getitem2 (IFP.P ifp) z z'
  = euler_term t c_vec a z ifp z' η ζ.
Proof. reflexivity. Qed.

Lemma spec_E_contributions t c_vec a z ifp :
  spec_E t c_vec a z ifp
  = 1 / (INR (length (IFP.η_draws ifp)) * INR (length (IFP.ζ_draws ifp)))
    * Rsum (map (state_contribution t c_vec a z ifp) (states ifp)).
Proof. reflexivity. Qed.

(** ** The constructor *)

Lemma randn_length n g draws g' :
  np.randn n g = Ok (draws, g') -> length draws = Z.to_nat n.
Proof.
  unfold np.randn. destruct (n <? 0)%Z; [discriminate|].
  intros H. inversion H. now rewrite length_map, length_seq.
Qed.

Lemma linspace_length start stop num grid :
  np.linspace start stop num = Ok grid -> length grid = Z.to_nat num.
Proof.
  unfold np.linspace. destruct (num <? 0)%Z; [discriminate|].
  intros H. inversion H. now rewrite length_map, length_seq.
Qed.

(** What a successful construction stores. *)
Lemma init_inv seeded g γ β P σ_vec s shock_draw_size grid_max grid_size
    ifp g' :
  IFP.__init__ seeded g γ β P σ_vec s shock_draw_size grid_max grid_size
    = Ok (ifp, g') ->
  IFP.γ ifp = γ /\ IFP.β ifp = β /\ IFP.P ifp = P
  /\ IFP.σ_vec ifp = σ_vec /\ IFP.s ifp = s
  /\ np.linspace 0 grid_max grid_size = Ok (IFP.a_grid ifp)
  /\ length (IFP.η_draws ifp) = Z.to_nat shock_draw_size
  /\ length (IFP.ζ_draws ifp) = Z.to_nat shock_draw_size.
Proof.
  unfold IFP.__init__.
  destruct (np.randn shock_draw_size (seeded 1234%Z)) as [[η g1]|] eqn:E1;
    [|discriminate].
  cbn [bind].
  destruct (np.randn shock_draw_size g1) as [[ζ g2]|] eqn:E2;
    [|discriminate].
  cbn [bind].
  destruct (np.linspace 0 grid_max grid_size) as [grid|] eqn:E3;
    [|discriminate].
  cbn [bind]. intros H. inversion H; subst. cbn.
  repeat split; try reflexivity.
  - eapply randn_length; eassumption.
  - eapply randn_length; eassumption.
Qed.

(** ** C1, C9, C10: what [euler_diff] computes *)

Lemma euler_diff_unfold t c_vec a z ifp :
  euler_diff t c_vec a z ifp
  = IFP.u_prime ifp t
    - Rmax (IFP.β ifp
            * ((state_contribution t c_vec a z ifp 0
                + state_contribution t c_vec a z ifp 1)
               / (INR (length (IFP.η_draws ifp))
                  * INR (length (IFP.η_draws ifp)))))
           (IFP.u_prime ifp a).
Proof.
  unfold euler_diff. cbv zeta. now rewrite euler_loops_sum.
Qed.

Lemma euler_diff_meets_spec t c_vec a z ifp :
  length (IFP.P ifp) = 2%nat ->
  length (IFP.η_draws ifp) = length (IFP.ζ_draws ifp) ->
  euler_diff t c_vec a z ifp = spec_EulerResidual t c_vec a z ifp.
Proof.
  intros HP Hlen. rewrite euler_diff_unfold.
  unfold spec_EulerResidual. rewrite spec_E_contributions.
  unfold states. rewrite HP, <- Hlen. cbn [seq map Rsum fold_right].
  unfold spec_u', IFP.u_prime. f_equal. f_equal. f_equal.
  unfold Rdiv. ring.
Qed.

(** C1 (as amended) -- For every candidate consumption [t > 0], assets
    [a > 0], income state [z], previous policy array and every
    ModelParameters built by the constructor with at least one draw per
    shock sequence ([shock_draw_size > 0]) whose transition matrix has
    exactly two income states, [euler_diff] returns
    [u'(t) - max(β·E, u'(a))] with [E] the Monte Carlo average of the
    specification, summed over every income state and both draw
    sequences. *)
Theorem euler_diff_two_states_spec
    seeded g γ β P σ_vec s shock_draw_size grid_max grid_size ifp g'
    t c_vec a z :
  0 < t ->
  0 < a ->
  (0 < shock_draw_size)%Z ->
  IFP.__init__ seeded g γ β P σ_vec s shock_draw_size grid_max grid_size
    = Ok (ifp, g') ->
  length P = 2%nat ->
  euler_diff t c_vec a z ifp = spec_EulerResidual t c_vec a z ifp.
Proof.
  intros _ _ _ Hinit HP.
  destruct (init_inv _ _ _ _ _ _ _ _ _ _ _ _ Hinit)
    as (_ & _ & HP' & _ & _ & _ & Hη & Hζ).
  apply euler_diff_meets_spec.
  - now rewrite HP'.
  - now rewrite Hη, Hζ.
Qed.

(** Marginal utility for γ = 2. *)
Lemma u_prime_square ifp x :
  IFP.γ ifp = 2 -> 0 < x -> IFP.u_prime ifp x = / (x * x).
Proof.
  intros Hγ Hx. unfold IFP.u_prime. rewrite Hγ, Rpower_Ropp.
  replace 2 with (INR 2) by (simpl; lra).
  rewrite Rpower_pow by exact Hx. simpl. f_equal. ring.
Qed.

Lemma R_unit_scale ifp z ζ :
  nth z (IFP.σ_vec ifp) 0 = 0 -> IFP.R ifp z ζ = 1.
Proof.
  intros H. unfold IFP.R. rewrite H, Rmult_0_l. apply exp_0.
Qed.

Lemma Y_unit_scale ifp η : IFP.s ifp = 0 -> IFP.Y ifp η = 1.
Proof.
  intros H. unfold IFP.Y. rewrite H, Rmult_0_l. apply exp_0.
Qed.

Lemma three_states_constructed :
  IFP.__init__ counting_rng (fun _ => 0) 2 (/2) P3 [0; 0; 0] 0 1 1 2
  = Ok (ifp_three_states, fun j => INR (1 + (1 + j))).
Proof.
  unfold IFP.__init__, np.randn, np.linspace, ifp_three_states.
  change (Z.to_nat 1) with 1%nat. change (Z.to_nat 2) with 2%nat.
  cbn. do 3 f_equal. f_equal; [lra | f_equal; lra].
Qed.

Lemma three_states_term z' η ζ :
  (z' < 3)%nat ->
  euler_term 1 c_vec_ones 2 0 ifp_three_states z' η ζ = getitem2 P3 0 z'.
Proof.
  intros Hz. unfold euler_term.
  rewrite R_unit_scale, Y_unit_scale; try reflexivity.
  - assert (Hc : interp (IFP.a_grid ifp_three_states)
                   (np.column z' c_vec_ones) (1 * (2 - 1) + 1) = 1).
    { destruct z' as [|[|[|z']]]; try lia; cbn; lra. }
    rewrite Hc, u_prime_square; [|reflexivity|lra].
    cbn [IFP.P ifp_three_states]. lra.
  - destruct z' as [|[|[|z']]]; try lia; reflexivity.
Qed.

Lemma three_states_contribution z' :
  (z' < 3)%nat ->
  state_contribution 1 c_vec_ones 2 0 ifp_three_states z' = getitem2 P3 0 z'.
Proof.
  intros Hz. unfold state_contribution.
  cbn [IFP.η_draws IFP.ζ_draws ifp_three_states map Rsum fold_right].
  rewrite three_states_term by exact Hz. lra.
Qed.

Lemma three_states_code :
  euler_diff 1 c_vec_ones 2 0 ifp_three_states = 3 / 4.
Proof.
  rewrite euler_diff_unfold.
  rewrite !three_states_contribution by lia.
  rewrite !u_prime_square by (try reflexivity; lra).
  cbn [IFP.β IFP.η_draws ifp_three_states length getitem2 nth P3 INR].
  replace (/ 2 * ((/ 4 + / 4) / (1 * 1))) with (/ 4) by lra.
  replace (/ (2 * 2)) with (/ 4) by lra.
  rewrite Rmax_left by lra. lra.
Qed.

Lemma three_states_spec :
  spec_EulerResidual 1 c_vec_ones 2 0 ifp_three_states = 1 / 2.
Proof.
  unfold spec_EulerResidual. rewrite spec_E_contributions.
  unfold states.
  cbn [IFP.P ifp_three_states P3 length seq map Rsum fold_right].
  rewrite !three_states_contribution by lia.
  change (spec_u' ifp_three_states) with (IFP.u_prime ifp_three_states).
  rewrite !u_prime_square by (try reflexivity; lra).
  cbn [IFP.β IFP.η_draws IFP.ζ_draws ifp_three_states length getitem2 nth
       P3 INR].
  replace (/ 2 * (1 / (1 * 1) * (/ 4 + (/ 4 + (/ 2 + 0))))) with (/ 2)
    by lra.
  replace (/ (2 * 2)) with (/ 4) by lra.
  rewrite Rmax_left by lra. lra.
Qed.

(** C1 (as stated) fails -- a ModelParameters built by the constructor with
    three income states, on which [euler_diff] returns 3/4 while the
    specification's residual, whose expectation covers all three states, is
    1/2.  Both shock scales are 0, so the values of the draws play no
    part. *)
Lemma euler_diff_three_states_differs :
  IFP.__init__ counting_rng (fun _ => 0) 2 (/2) P3 [0; 0; 0] 0 1 1 2
  = Ok (ifp_three_states, fun j => INR (1 + (1 + j)))
  /\ 0 < 1 /\ 0 < 2
  /\ euler_diff 1 c_vec_ones 2 0 ifp_three_states
     <> spec_EulerResidual 1 c_vec_ones 2 0 ifp_three_states.
Proof.
  split; [exact three_states_constructed|].
  split; [lra|]. split; [lra|].
  rewrite three_states_code, three_states_spec. lra.
Qed.

Lemma two_states_constructed :
  IFP.__init__ counting_rng (fun _ => 0) 2 (/2) [[0.8; 0.2]; [0.7; 0.3]]
    [0; 0] 0 1 2 2
  = Ok (ifp_two_states, fun j => INR (1 + (1 + j))).
Proof.
  unfold IFP.__init__, np.randn, np.linspace, ifp_two_states.
  change (Z.to_nat 1) with 1%nat. change (Z.to_nat 2) with 2%nat.
  cbn. do 3 f_equal. f_equal; [lra | f_equal; lra].
Qed.

(** The amended C1 at the two-state model on the grid {0, 2}, with
    [t = a = 1] against the policy "consume all assets". *)
Lemma euler_diff_two_states_spec_witness :
  euler_diff 1 c_vec_all 1 0 ifp_two_states
  = spec_EulerResidual 1 c_vec_all 1 0 ifp_two_states.
Proof.
  apply (euler_diff_two_states_spec counting_rng (fun _ => 0) 2 (/2)
           [[0.8; 0.2]; [0.7; 0.3]] [0; 0] 0 1 2 2 ifp_two_states
           (fun j => INR (1 + (1 + j)))).
  - lra.
  - lra.
  - lia.
  - exact two_states_constructed.
  - reflexivity.
Defined.

(** C9 -- [euler_diff] adds up the next-period expectation over the income
    states 0 and 1 only, whatever the size of [P]: its value is
    [u'(t) - max(β·(contribution of state 0 + contribution of state 1)/N,
    u'(a))].  When [P] has exactly two states that is the sum over all
    states; when it has more, the sum over all states is the sum the code
    forms plus the contributions of the states 2, 3, ..., which the code
    leaves out. *)
Theorem euler_diff_sums_states_0_and_1 t c_vec a z ifp :
  euler_diff t c_vec a z ifp
  = IFP.u_prime ifp t
    - Rmax (IFP.β ifp
            * ((state_contribution t c_vec a z ifp 0
                + state_contribution t c_vec a z ifp 1)
               / (INR (length (IFP.η_draws ifp))
                  * INR (length (IFP.η_draws ifp)))))
           (IFP.u_prime ifp a)
  /\ (length (IFP.P ifp) = 2%nat ->
      Rsum (map (state_contribution t c_vec a z ifp) (states ifp))
      = euler_loops t c_vec a z ifp)
  /\ ((2 < length (IFP.P ifp))%nat ->
      Rsum (map (state_contribution t c_vec a z ifp) (states ifp))
      = euler_loops t c_vec a z ifp
        + Rsum (map (state_contribution t c_vec a z ifp)
                  (seq 2 (length (IFP.P ifp) - 2)))).
Proof.
  split; [apply euler_diff_unfold|]. split.
  - intros HP. unfold states. rewrite HP, euler_loops_sum. simpl. lra.
  - intros HP. unfold states.
    replace (length (IFP.P ifp)) with (2 + (length (IFP.P ifp) - 2))%nat
      at 1 by lia.
    rewrite seq_app, map_app, Rsum_app, euler_loops_sum. simpl. lra.
Qed.

(** C10 -- [euler_diff] binds its local [ζ_draws] to [ifp.η_draws], so the
    accumulated sum is divided by [len(η_draws)·len(η_draws)]; every
    ModelParameters coming out of the constructor has both draw sequences
    of length [shock_draw_size], and on it the residual equals the one
    normalised by [len(η_draws)·len(ζ_draws)]. *)
Theorem euler_diff_normalisation :
  (forall t c_vec a z ifp,
     euler_diff t c_vec a z ifp
     = IFP.u_prime ifp t
       - Rmax (IFP.β ifp
               * (euler_loops t c_vec a z ifp
                  / (INR (length (IFP.η_draws ifp))
                     * INR (length (IFP.η_draws ifp)))))
              (IFP.u_prime ifp a))
  /\ (forall seeded g γ β P σ_vec s shock_draw_size grid_max grid_size
        ifp g',
        IFP.__init__ seeded g γ β P σ_vec s shock_draw_size grid_max
          grid_size = Ok (ifp, g') ->
        length (IFP.η_draws ifp) = Z.to_nat shock_draw_size
        /\ length (IFP.ζ_draws ifp) = Z.to_nat shock_draw_size
        /\ forall t c_vec a z,
             euler_diff t c_vec a z ifp
             = euler_diff_two_lengths t c_vec a z ifp).
Proof.
  split; [reflexivity|].
  intros seeded g γ β P σ_vec s shock_draw_size grid_max grid_size ifp g'
    Hinit.
  destruct (init_inv _ _ _ _ _ _ _ _ _ _ _ _ Hinit)
    as (_ & _ & _ & _ & _ & _ & Hη & Hζ).
  repeat split; try assumption.
  intros t c_vec a z. unfold euler_diff, euler_diff_two_lengths.
  cbv zeta. now rewrite Hη, Hζ.
Qed.

(** Outside the constructor's range the binding matters: with two η draws
    and one ζ draw the code divides by 4 where the two lengths call for 2. *)
Lemma normalisation_differs_for_unequal_lengths :
  let ifp := IFP.mk 2 (/2) [[1; 0]; [0; 1]] [0; 0] 0 [0; 1] [0; 0] [0] in
  INR (length (IFP.η_draws ifp)) * INR (length (IFP.η_draws ifp)) = 4
  /\ INR (length (IFP.η_draws ifp)) * INR (length (IFP.ζ_draws ifp)) = 2.
Proof. cbn. split; lra. Qed.

(** ** C5: the interpolant *)

Lemma increasing_tail x l : increasing (x :: l) -> increasing l.
Proof. destruct l; simpl; tauto. Qed.

Lemma nondecreasing_tail x l : nondecreasing (x :: l) -> nondecreasing l.
Proof. destruct l; simpl; tauto. Qed.

(** Along an increasing vector no entry is below the first. *)
Lemma increasing_first_le l :
  increasing l ->
  forall k, (k < length l)%nat -> nth 0 l 0 <= nth k l 0.
Proof.
  induction l as [|x l IH]; intros Hinc k Hk; [simpl in Hk; lia|].
  destruct k as [|k]; [simpl; lra|].
  destruct l as [|y l]; [simpl in Hk; lia|].
  destruct Hinc as [Hxy Hinc].
  specialize (IH Hinc k ltac:(simpl in *; lia)).
  change (nth (S k) (x :: y :: l) 0) with (nth k (y :: l) 0).
  simpl in IH |- *. lra.
Qed.

(** One linear piece at its two ends. *)
Lemma segment_left x0 x1 y0 y1 :
  y0 + (x0 - x0) / (x1 - x0) * (y1 - y0) = y0.
Proof. unfold Rdiv. ring. Qed.

Lemma segment_right x0 x1 y0 y1 :
  x0 < x1 -> y0 + (x1 - x0) / (x1 - x0) * (y1 - y0) = y1.
Proof. intros H. field. lra. Qed.

(** The two equations of [interp] on a grid with a segment. *)
Lemma interp_last_segment x0 x1 y0 y1 col a :
  interp [x0; x1] (y0 :: y1 :: col) a
  = y0 + (a - x0) / (x1 - x0) * (y1 - y0).
Proof. reflexivity. Qed.

Lemma interp_inner_segment x0 x1 x2 grid y0 y1 col a :
  interp (x0 :: x1 :: x2 :: grid) (y0 :: y1 :: col) a
  = if Rlt_dec a x1 then y0 + (a - x0) / (x1 - x0) * (y1 - y0)
    else interp (x1 :: x2 :: grid) (y1 :: col) a.
Proof. reflexivity. Qed.

(** C5 -- For every policy column as long as the grid and every grid index
    [i], evaluating the interpolant at the node [a_grid[i]] of a strictly
    increasing grid returns the stored value [column[i]].
    spec-modelled: [interp] is the definition written from the
    specification; values are real numbers. *)
Theorem interp_exact_at_nodes (grid col : np.ndarray1) (i : nat) :
  increasing grid ->
  length col = length grid ->
  (i < length grid)%nat ->
  interp grid col (nth i grid 0) = nth i col 0.
Proof.
  revert col i.
  induction grid as [|x0 grid IH]; intros col i Hinc Hlen Hi;
    [simpl in Hi; lia|].
  destruct col as [|y0 col]; [discriminate|].
  destruct grid as [|x1 grid2].
  - destruct col; [|discriminate].
    destruct i as [|i]; [reflexivity | simpl in Hi; lia].
  - destruct col as [|y1 col2]; [discriminate|].
    destruct Hinc as [H01 Hinc].
    destruct grid2 as [|x2 grid3].
    + destruct i as [|[|i]]; simpl in Hi; try lia; simpl.
      * apply segment_left.
      * now apply segment_right.
    + destruct i as [|i].
      * rewrite interp_inner_segment. cbn [nth].
        destruct (Rlt_dec x0 x1); [|lra].
        apply segment_left.
      * change (nth (S i) (x0 :: x1 :: x2 :: grid3) 0)
          with (nth i (x1 :: x2 :: grid3) 0).
        change (nth (S i) (y0 :: y1 :: col2) 0)
          with (nth i (y1 :: col2) 0).
        assert (Hge : x1 <= nth i (x1 :: x2 :: grid3) 0).
        { apply (increasing_first_le (x1 :: x2 :: grid3) Hinc).
          simpl in Hi |- *. lia. }
        rewrite interp_inner_segment.
        destruct (Rlt_dec (nth i (x1 :: x2 :: grid3) 0) x1); [lra|].
        apply IH; [exact Hinc | simpl in Hlen |- *; lia
                  | simpl in Hi |- *; lia].
Qed.

(** C5 at the second node of the grid {0, 2}. *)
Lemma interp_exact_at_nodes_witness :
  interp [0; 2] [0; 2] (nth 1 [0; 2] 0) = nth 1 [0; 2] 0.
Proof.
  apply (interp_exact_at_nodes [0; 2] [0; 2] 1).
  - simpl. split; [lra | exact I].
  - reflexivity.
  - simpl. lia.
Defined.

(** ** C4: monotonicity of the residual *)

Lemma segment_mono x0 x1 y0 y1 a a' :
  x0 < x1 -> y0 <= y1 -> a <= a' ->
  y0 + (a - x0) / (x1 - x0) * (y1 - y0)
  <= y0 + (a' - x0) / (x1 - x0) * (y1 - y0).
Proof.
  intros Hx Hy Ha. unfold Rdiv.
  assert (Hinv : 0 < / (x1 - x0)) by (apply Rinv_0_lt_compat; lra).
  assert (Hslope : 0 <= / (x1 - x0) * (y1 - y0))
    by (apply Rmult_le_pos; lra).
  nra.
Qed.

Lemma segment_pos x0 x1 y0 y1 a :
  x0 < x1 -> 0 <= y0 -> y0 <= y1 -> 0 < y1 -> x0 < a ->
  0 < y0 + (a - x0) / (x1 - x0) * (y1 - y0).
Proof.
  intros Hx Hy0 Hy Hy1 Ha. unfold Rdiv.
  assert (Hinv : 0 < / (x1 - x0)) by (apply Rinv_0_lt_compat; lra).
  assert (Hλ : 0 < (a - x0) * / (x1 - x0))
    by (apply Rmult_lt_0_compat; lra).
  destruct (Req_dec y0 0) as [H0|H0].
  - subst y0. rewrite Rminus_0_r, Rplus_0_l.
    apply Rmult_lt_0_compat; assumption.
  - assert (0 <= (a - x0) * / (x1 - x0) * (y1 - y0))
      by (apply Rmult_le_pos; lra).
    lra.
Qed.

(** At or beyond the first node a non-decreasing column is interpolated at
    or above its first value. *)
Lemma interp_ge_first grid :
  forall col a,
    increasing grid -> nondecreasing col -> length col = length grid ->
    nth 0 grid 0 <= a ->
    nth 0 col 0 <= interp grid col a.
Proof.
  induction grid as [|x0 grid IH]; intros col a Hinc Hnd Hlen Ha.
  - destruct col; [simpl; lra | discriminate].
  - destruct col as [|y0 col]; [discriminate|].
    destruct grid as [|x1 grid2].
    + destruct col; [simpl; lra | discriminate].
    + destruct col as [|y1 col2]; [discriminate|].
      destruct Hinc as [H01 Hinc]. destruct Hnd as [Hy Hnd].
      cbn [nth] in Ha |- *.
      assert (Hseg : y0 <= y0 + (a - x0) / (x1 - x0) * (y1 - y0)).
      { rewrite <- (segment_left x0 x1 y0 y1) at 1.
        now apply segment_mono. }
      destruct grid2 as [|x2 grid3].
      * rewrite interp_last_segment. exact Hseg.
      * rewrite interp_inner_segment.
        destruct (Rlt_dec a x1) as [Hlt|Hge]; [exact Hseg|].
        assert (y1 <= interp (x1 :: x2 :: grid3) (y1 :: col2) a).
        { apply (IH (y1 :: col2) a Hinc Hnd); [simpl in *; lia|].
          simpl. lra. }
        lra.
Qed.

(** The interpolant of a non-decreasing column over an increasing grid is
    non-decreasing. *)
Lemma interp_mono grid :
  forall col a a',
    increasing grid -> nondecreasing col -> length col = length grid ->
    a <= a' ->
    interp grid col a <= interp grid col a'.
Proof.
  induction grid as [|x0 grid IH]; intros col a a' Hinc Hnd Hlen Ha.
  - destruct col; simpl; lra.
  - destruct col as [|y0 col]; [discriminate|].
    destruct grid as [|x1 grid2].
    + destruct col; simpl; lra.
    + destruct col as [|y1 col2]; [discriminate|].
      destruct Hinc as [H01 Hinc]. destruct Hnd as [Hy Hnd].
      destruct grid2 as [|x2 grid3].
      * rewrite !interp_last_segment. now apply segment_mono.
      * rewrite !interp_inner_segment.
        destruct (Rlt_dec a x1) as [Hlt|Hge];
          destruct (Rlt_dec a' x1) as [Hlt'|Hge']; try lra.
        -- now apply segment_mono.
        -- apply Rle_trans with y1.
           ++ rewrite <- (segment_right x0 x1 y0 y1 H01) at 2.
              apply segment_mono; lra.
           ++ apply (interp_ge_first (x1 :: x2 :: grid3) (y1 :: col2) a'
                       Hinc Hnd); [simpl in *; lia | simpl; lra].
        -- apply (IH (y1 :: col2) a a' Hinc Hnd); [simpl in *; lia | lra].
Qed.

(** Above the first node the interpolant of a non-decreasing column that
    starts non-negative and is positive at the second node is positive. *)
Lemma interp_pos grid col a :
  increasing grid -> nondecreasing col -> length col = length grid ->
  0 <= nth 0 col 0 -> 0 < nth 1 col 0 ->
  nth 0 grid 0 < a ->
  0 < interp grid col a.
Proof.
  intros Hinc Hnd Hlen H0 H1 Ha.
  destruct grid as [|x0 [|x1 grid2]]; destruct col as [|y0 [|y1 col2]];
    try discriminate; simpl in H1; try lra.
  destruct Hinc as [H01 Hinc]. destruct Hnd as [Hy Hnd].
  cbn [nth] in H0, Ha.
  destruct grid2 as [|x2 grid3].
  - rewrite interp_last_segment. now apply segment_pos.
  - rewrite interp_inner_segment.
    destruct (Rlt_dec a x1) as [Hlt|Hge]; [now apply segment_pos|].
    assert (y1 <= interp (x1 :: x2 :: grid3) (y1 :: col2) a).
    { apply (interp_ge_first (x1 :: x2 :: grid3) (y1 :: col2) a Hinc Hnd);
        [simpl in *; lia | simpl; lra]. }
    lra.
Qed.

(** Marginal utility falls with consumption. *)
Lemma u_prime_antitone ifp x y :
  0 <= IFP.γ ifp -> 0 < x -> x <= y ->
  IFP.u_prime ifp y <= IFP.u_prime ifp x.
Proof.
  intros Hγ Hx Hxy. unfold IFP.u_prime. rewrite !Rpower_Ropp.
  apply Rinv_le_contravar.
  - unfold Rpower. apply exp_pos.
  - apply Rle_Rpower_l; [exact Hγ | lra].
Qed.

Lemma u_prime_strict ifp x y :
  0 < IFP.γ ifp -> 0 < x -> x < y ->
  IFP.u_prime ifp y < IFP.u_prime ifp x.
Proof.
  intros Hγ Hx Hxy. unfold IFP.u_prime. rewrite !Rpower_Ropp.
  apply Rinv_lt_contravar.
  - apply Rmult_lt_0_compat; unfold Rpower; apply exp_pos.
  - apply Rlt_Rpower_l; [exact Hγ | lra].
Qed.

Lemma u_prime_nonneg ifp x : 0 <= IFP.u_prime ifp x.
Proof. unfold IFP.u_prime, Rpower. left. apply exp_pos. Qed.

Section ResidualMonotone.

Variable ifp : IFP.t.
Variable c_vec : np.ndarray2.
Variables (a : R) (z : nat).

Hypothesis γ_pos : 0 < IFP.γ ifp.
Hypothesis β_nonneg : 0 <= IFP.β ifp.
Hypothesis grid_increasing : increasing (IFP.a_grid ifp).
Hypothesis grid_from_zero : nth 0 (IFP.a_grid ifp) 0 = 0.
Hypothesis rows : length c_vec = length (IFP.a_grid ifp).
Hypothesis columns :
  forall z', (z' < 2)%nat ->
    nondecreasing (np.column z' c_vec)
    /\ 0 <= nth 0 (np.column z' c_vec) 0
    /\ 0 < nth 1 (np.column z' c_vec) 0.
Hypothesis P_nonneg :
  forall z', (z' < 2)%nat -> 0 <= getitem2 (IFP.P ifp) z z'.

Lemma euler_term_mono t1 t2 z_hat η ζ :
  (z_hat < 2)%nat -> t1 <= t2 -> t2 <= a ->
  euler_term t1 c_vec a z ifp z_hat η ζ
  <= euler_term t2 c_vec a z ifp z_hat η ζ.
Proof.
  intros Hz H12 H2a. unfold euler_term.
  destruct (columns z_hat Hz) as (Hnd & Hc0 & Hc1).
  assert (HR : 0 < IFP.R ifp z_hat ζ) by (unfold IFP.R; apply exp_pos).
  assert (HY : 0 < IFP.Y ifp η) by (unfold IFP.Y; apply exp_pos).
  set (Rh := IFP.R ifp z_hat ζ) in *. set (Yh := IFP.Y ifp η) in *.
  assert (Hlen : length (np.column z_hat c_vec) = length (IFP.a_grid ifp))
    by (unfold np.column; now rewrite length_map).
  assert (Hx2 : 0 < Rh * (a - t2) + Yh) by nra.
  assert (Hx : Rh * (a - t2) + Yh <= Rh * (a - t1) + Yh) by nra.
  apply Rmult_le_compat_r; [now apply P_nonneg|].
  apply Rmult_le_compat_l; [lra|].
  apply u_prime_antitone; [lra | |].
  - apply interp_pos; try assumption. now rewrite grid_from_zero.
  - now apply interp_mono.
Qed.

Lemma state_contribution_mono t1 t2 z_hat :
  (z_hat < 2)%nat -> t1 <= t2 -> t2 <= a ->
  state_contribution t1 c_vec a z ifp z_hat
  <= state_contribution t2 c_vec a z ifp z_hat.
Proof.
  intros Hz H12 H2a. unfold state_contribution.
  apply Rsum_map_le. intros η _. apply Rsum_map_le. intros ζ _.
  now apply euler_term_mono.
Qed.

Lemma residual_strictly_decreasing :
  strictly_decreasing_on (fun t => euler_diff t c_vec a z ifp) a.
Proof.
  intros t1 t2 Ht1 H12 H2a. cbv beta. rewrite !euler_diff_unfold.
  assert (Hu : IFP.u_prime ifp t2 < IFP.u_prime ifp t1)
    by (now apply u_prime_strict).
  set (N := INR (length (IFP.η_draws ifp))).
  assert (HN : 0 <= / (N * N)).
  { destruct (Req_dec (N * N) 0) as [E|E].
    - rewrite E, Rinv_0. lra.
    - left. apply Rinv_0_lt_compat.
      assert (0 <= N) by apply pos_INR. nra. }
  assert (H0 := state_contribution_mono t1 t2 0 ltac:(lia)
                  ltac:(lra) H2a).
  assert (H1 := state_contribution_mono t1 t2 1 ltac:(lia)
                  ltac:(lra) H2a).
  assert (Hmax :
    Rmax (IFP.β ifp
          * ((state_contribution t1 c_vec a z ifp 0
              + state_contribution t1 c_vec a z ifp 1) / (N * N)))
         (IFP.u_prime ifp a)
    <= Rmax (IFP.β ifp
             * ((state_contribution t2 c_vec a z ifp 0
                 + state_contribution t2 c_vec a z ifp 1) / (N * N)))
            (IFP.u_prime ifp a)).
  { apply Rle_max_compat_r. apply Rmult_le_compat_l; [exact β_nonneg|].
    unfold Rdiv. apply Rmult_le_compat_r; [exact HN | lra]. }
  lra.
Qed.

End ResidualMonotone.

(** C4 (as amended) -- For every fixed assets [a > 0], income state [z]
    and previous policy array whose columns 0 and 1 are non-decreasing
    along the grid, non-negative at the first node and positive at the
    second, with γ > 0, β strictly between 0 and 1, non-negative transition
    probabilities out of [z], a strictly increasing grid that starts at 0
    and at least one η draw, [euler_diff] is strictly decreasing in the
    candidate consumption [t] over (0, a]. *)
Theorem euler_diff_strictly_decreasing ifp c_vec a z :
  0 < a ->
  0 < IFP.γ ifp ->
  0 < IFP.β ifp < 1 ->
  IFP.η_draws ifp <> [] ->
  increasing (IFP.a_grid ifp) ->
  nth 0 (IFP.a_grid ifp) 0 = 0 ->
  length c_vec = length (IFP.a_grid ifp) ->
  (forall z', (z' < 2)%nat ->
     nondecreasing (np.column z' c_vec)
     /\ 0 <= nth 0 (np.column z' c_vec) 0
     /\ 0 < nth 1 (np.column z' c_vec) 0) ->
  (forall z', (z' < 2)%nat -> 0 <= getitem2 (IFP.P ifp) z z') ->
  strictly_decreasing_on (fun t => euler_diff t c_vec a z ifp) a.
Proof.
  intros _ Hγ [Hβ _] _ Hgrid H0 Hrows Hcols HP.
  apply residual_strictly_decreasing; try assumption. lra.
Qed.

(** The amended C4 at the two-state model on the grid {0, 2}, with
    [a = 1] against the policy "consume all assets". *)
Lemma euler_diff_strictly_decreasing_witness :
  strictly_decreasing_on
    (fun t => euler_diff t c_vec_all 1 0 ifp_two_states) 1.
Proof.
  apply (euler_diff_strictly_decreasing ifp_two_states c_vec_all 1 0).
  - lra.
  - simpl. lra.
  - simpl. lra.
  - discriminate.
  - simpl. split; [lra | exact I].
  - reflexivity.
  - reflexivity.
  - intros z' Hz. destruct z' as [|[|z']]; [| |lia]; simpl;
      repeat split; lra.
  - intros z' Hz. destruct z' as [|[|z']]; [| |lia];
      unfold getitem2; simpl; lra.
Defined.

(** On the falling policy the interpolated consumption next period is half
    of what is consumed today. *)
Lemma falling_term t z' η ζ :
  (z' < 2)%nat -> 0 < t ->
  euler_term t c_vec_falling 1 0 ifp_two_states z' η ζ
  = / (t / 2 * (t / 2)) * getitem2 (IFP.P ifp_two_states) 0 z'.
Proof.
  intros Hz Ht. unfold euler_term.
  rewrite R_unit_scale, Y_unit_scale; try reflexivity.
  - assert (Hc : interp (IFP.a_grid ifp_two_states)
                   (np.column z' c_vec_falling) (1 * (1 - t) + 1) = t / 2).
    { destruct z' as [|[|z']]; try lia; cbn; lra. }
    rewrite Hc, u_prime_square; [|reflexivity|lra]. lra.
  - destruct z' as [|[|z']]; try lia; reflexivity.
Qed.

Lemma falling_residual t :
  0 < t -> t <= 1 ->
  euler_diff t c_vec_falling 1 0 ifp_two_states = - / (t * t).
Proof.
  intros Ht Ht1. rewrite euler_diff_unfold.
  unfold state_contribution.
  cbn [IFP.η_draws IFP.ζ_draws ifp_two_states map Rsum fold_right length].
  rewrite !falling_term by (try lia; lra).
  rewrite !u_prime_square by (try reflexivity; lra).
  cbn [IFP.β IFP.P ifp_two_states getitem2 nth INR].
  assert (Hsq : 0 < t * t) by nra.
  assert (Hinv : 1 <= / (t * t)).
  { rewrite <- Rinv_1. apply Rinv_le_contravar; nra. }
  assert (HX : / (t / 2 * (t / 2)) = 4 * / (t * t)) by (field; lra).
  rewrite HX, Rmult_1_l, Rinv_1.
  replace (/ 2 * ((4 * / (t * t) * 0.8 + 0 + 0
                   + (4 * / (t * t) * 0.2 + 0 + 0)) / 1))
    with (2 * / (t * t)) by lra.
  rewrite Rmax_left by lra.
  lra.
Qed.

(** C4 (as stated) fails -- with γ = 2, β = 1/2, assets [a = 1] and a
    ModelParameters built by the constructor, the residual against the
    falling policy is [-1/t^2] on (0, 1]: it rises from -4 at t = 1/2 to -1
    at t = 1.  Both shock scales are 0, so the values of the draws play no
    part. *)
Lemma euler_diff_rises_on_falling_policy :
  IFP.__init__ counting_rng (fun _ => 0) 2 (/2) [[0.8; 0.2]; [0.7; 0.3]]
    [0; 0] 0 1 2 2
  = Ok (ifp_two_states, fun j => INR (1 + (1 + j)))
  /\ 0 < IFP.γ ifp_two_states
  /\ 0 < IFP.β ifp_two_states < 1
  /\ euler_diff (1 / 2) c_vec_falling 1 0 ifp_two_states = -4
  /\ euler_diff 1 c_vec_falling 1 0 ifp_two_states = -1
  /\ ~ strictly_decreasing_on
         (fun t => euler_diff t c_vec_falling 1 0 ifp_two_states) 1.
Proof.
  assert (H1 : euler_diff (1 / 2) c_vec_falling 1 0 ifp_two_states = -4).
  { rewrite falling_residual by lra. field. }
  assert (H2 : euler_diff 1 c_vec_falling 1 0 ifp_two_states = -1).
  { rewrite falling_residual by lra. field. }
  split; [exact two_states_constructed|].
  split; [simpl; lra|]. split; [simpl; lra|].
  split; [exact H1|]. split; [exact H2|].
  intros Hdec.
  specialize (Hdec (1 / 2) 1 ltac:(lra) ltac:(lra) ltac:(lra)).
  cbv beta in Hdec. rewrite H1, H2 in Hdec. lra.
Qed.

(** ** C7, C8: construction *)

Lemma linspace_ok start stop num :
  (0 <= num)%Z ->
  exists grid, np.linspace start stop num = Ok grid.
Proof.
  intros H. unfold np.linspace.
  destruct (Z.ltb_spec num 0); [lia|]. eexists. reflexivity.
Qed.

Lemma randn_ok n g :
  (0 <= n)%Z -> exists draws g', np.randn n g = Ok (draws, g').
Proof.
  intros H. unfold np.randn.
  destruct (Z.ltb_spec n 0); [lia|]. do 2 eexists. reflexivity.
Qed.

(** Construction succeeds exactly when neither size is negative. *)
Lemma init_succeeds_iff seeded g γ β P σ_vec s shock_draw_size grid_max
    grid_size :
  (exists ifp g',
     IFP.__init__ seeded g γ β P σ_vec s shock_draw_size grid_max grid_size
     = Ok (ifp, g'))
  <-> (0 <= shock_draw_size)%Z /\ (0 <= grid_size)%Z.
Proof.
  unfold IFP.__init__, np.randn, np.linspace. split.
  - intros (ifp & g' & H).
    destruct (Z.ltb_spec shock_draw_size 0); [discriminate|].
    cbn [bind] in H.
    destruct (Z.ltb_spec grid_size 0); [discriminate|].
    lia.
  - intros [H1 H2].
    destruct (Z.ltb_spec shock_draw_size 0); [lia|]. cbn [bind].
    destruct (Z.ltb_spec grid_size 0); [lia|]. cbn [bind].
    do 2 eexists. reflexivity.
Qed.

(** C7 (as amended) -- The constructor validates neither the transition
    matrix, nor the discount factor, nor the asset grid: construction
    succeeds exactly when [shock_draw_size] and [grid_size] are not
    negative, and then stores γ, β, P, σ_vec and s as they were given,
    the grid [np.linspace(0, grid_max, grid_size)] and two draw sequences
    of length [shock_draw_size]. *)
Theorem init_validates_nothing seeded g γ β P σ_vec s shock_draw_size
    grid_max grid_size :
  ((exists ifp g',
      IFP.__init__ seeded g γ β P σ_vec s shock_draw_size grid_max
        grid_size = Ok (ifp, g'))
   <-> (0 <= shock_draw_size)%Z /\ (0 <= grid_size)%Z)
  /\ (forall ifp g',
        IFP.__init__ seeded g γ β P σ_vec s shock_draw_size grid_max
          grid_size = Ok (ifp, g') ->
        IFP.γ ifp = γ /\ IFP.β ifp = β /\ IFP.P ifp = P
        /\ IFP.σ_vec ifp = σ_vec /\ IFP.s ifp = s
        /\ np.linspace 0 grid_max grid_size = Ok (IFP.a_grid ifp)
        /\ length (IFP.η_draws ifp) = Z.to_nat shock_draw_size
        /\ length (IFP.ζ_draws ifp) = Z.to_nat shock_draw_size).
Proof.
  split; [apply init_succeeds_iff | intros ifp g'; apply init_inv].
Qed.

(** C7 (as stated) fails -- construction succeeds with a transition matrix
    whose rows sum to 2, with the discount factor -1, with an empty grid
    and with a decreasing grid, all other arguments at their defaults. *)
Lemma init_accepts_invalid_parameters :
  (exists ifp g',
     IFP.__init__ counting_rng (fun _ => 0) default_γ default_β
       [[1; 1]; [1; 1]] default_σ_vec default_s default_shock_draw_size
       default_grid_max default_grid_size = Ok (ifp, g')
     /\ Rsum (nth 0 (IFP.P ifp) []) = 2)
  /\ (exists ifp g',
        IFP.__init__ counting_rng (fun _ => 0) default_γ (-1)
          default_P default_σ_vec default_s default_shock_draw_size
          default_grid_max default_grid_size = Ok (ifp, g')
        /\ IFP.β ifp <= 0)
  /\ (exists ifp g',
        IFP.__init__ counting_rng (fun _ => 0) default_γ default_β
          default_P default_σ_vec default_s default_shock_draw_size
          default_grid_max 0 = Ok (ifp, g')
        /\ IFP.a_grid ifp = [])
  /\ (exists ifp g',
        IFP.__init__ counting_rng (fun _ => 0) default_γ default_β
          default_P default_σ_vec default_s default_shock_draw_size
          (-1) 3 = Ok (ifp, g')
        /\ ~ increasing (IFP.a_grid ifp)).
Proof.
  repeat split.
  - do 2 eexists. split; [reflexivity|]. cbn. lra.
  - do 2 eexists. split; [reflexivity|]. cbn. lra.
  - do 2 eexists. split; [reflexivity|]. reflexivity.
  - do 2 eexists. split; [reflexivity|].
    cbn [IFP.a_grid]. change (Z.to_nat 3) with 3%nat. cbn.
    intros [H _]. lra.
Qed.

(** The draws stored by the constructor are the first [2 * shock_draw_size]
    draws of the generator seeded with 1234. *)
Lemma init_draws seeded g γ β P σ_vec s shock_draw_size grid_max grid_size
    ifp g' :
  IFP.__init__ seeded g γ β P σ_vec s shock_draw_size grid_max grid_size
    = Ok (ifp, g') ->
  IFP.η_draws ifp
  = map (seeded 1234%Z) (seq 0 (Z.to_nat shock_draw_size))
  /\ IFP.ζ_draws ifp
     = map (fun j => seeded 1234%Z (Z.to_nat shock_draw_size + j)%nat)
         (seq 0 (Z.to_nat shock_draw_size)).
Proof.
  unfold IFP.__init__, np.randn.
  destruct (shock_draw_size <? 0)%Z; [discriminate|]. cbn [bind].
  destruct (np.linspace 0 grid_max grid_size); [|discriminate].
  cbn [bind]. intros H. inversion H. now split.
Qed.

(** C8 -- Two sessions that construct ModelParameters from the same
    arguments and solve with the same configuration return the same policy
    array, whatever state the generator was in when each session
    started: the constructor reseeds it before drawing, so both instances
    hold the same two draw sequences, the first draws of the generator
    seeded with 1234. *)
Theorem solver_runs_reproducible
    (seeded : Z -> np.rng)
    (brentq : (R -> R) -> R -> R -> nat -> result R)
    (g1 g2 : np.rng) γ β P σ_vec s shock_draw_size grid_max grid_size
    tol max_iter verbose print_skip :
  IFP.__init__ seeded g1 γ β P σ_vec s shock_draw_size grid_max grid_size
  = IFP.__init__ seeded g2 γ β P σ_vec s shock_draw_size grid_max grid_size
  /\ (forall ifp1 g1' ifp2 g2',
        IFP.__init__ seeded g1 γ β P σ_vec s shock_draw_size grid_max
          grid_size = Ok (ifp1, g1') ->
        IFP.__init__ seeded g2 γ β P σ_vec s shock_draw_size grid_max
          grid_size = Ok (ifp2, g2') ->
        IFP.η_draws ifp1 = IFP.η_draws ifp2
        /\ IFP.ζ_draws ifp1 = IFP.ζ_draws ifp2
        /\ IFP.η_draws ifp1
           = map (seeded 1234%Z) (seq 0 (Z.to_nat shock_draw_size))
        /\ solve_model brentq ifp1 tol max_iter verbose print_skip
           = solve_model brentq ifp2 tol max_iter verbose print_skip)
  /\ construct_and_solve brentq seeded g1 γ β P σ_vec s shock_draw_size
       grid_max grid_size tol max_iter verbose print_skip
     = construct_and_solve brentq seeded g2 γ β P σ_vec s shock_draw_size
         grid_max grid_size tol max_iter verbose print_skip.
Proof.
  split; [reflexivity|]. split; [|reflexivity].
  intros ifp1 g1' ifp2 g2' H1 H2.
  destruct (init_draws _ _ _ _ _ _ _ _ _ _ _ _ H1) as [Hη1 Hζ1].
  destruct (init_draws _ _ _ _ _ _ _ _ _ _ _ _ H2) as [Hη2 Hζ2].
  assert (Heq : ifp1 = ifp2).
  { change (IFP.__init__ seeded g2 γ β P σ_vec s shock_draw_size grid_max
              grid_size)
      with (IFP.__init__ seeded g1 γ β P σ_vec s shock_draw_size grid_max
              grid_size) in H2.
    rewrite H1 in H2. now inversion H2. }
  subst ifp2. repeat split; try reflexivity. exact Hη1.
Qed.

(** ** C2, C6: the driver *)

Lemma set_column_first grid :
  np.set_column 0 grid (np.ones (length grid) 2)
  = Ok (map (fun a => [a; 1]) grid).
Proof.
  change (np.ones (length grid) 2) with (repeat [1; 1] (length grid)).
  induction grid as [|a grid IH]; [reflexivity|].
  cbn [length repeat np.set_column np.list_set map].
  now rewrite IH.
Qed.

Lemma set_column_second grid :
  np.set_column 1 grid (map (fun a => [a; 1]) grid)
  = Ok (map (fun a => [a; a]) grid).
Proof.
  induction grid as [|a grid IH]; [reflexivity|].
  cbn [np.set_column np.list_set map]. now rewrite IH.
Qed.

(** The initial guess holds the asset-grid value in both columns. *)
Lemma c_init_eq ifp :
  c_init ifp = Ok (map (fun a => [a; a]) (IFP.a_grid ifp)).
Proof.
  unfold c_init. cbn [for_each].
  rewrite set_column_first. cbn [bind].
  rewrite set_column_second. reflexivity.
Qed.

Lemma loop_test_true tol max_iter st :
  loop_test tol max_iter st = true <-> (i st < max_iter)%nat /\ tol < error st.
Proof.
  unfold loop_test. rewrite andb_true_iff, Nat.ltb_lt.
  destruct (Rlt_dec tol (error st)); intuition (try discriminate; auto).
Qed.

Lemma loop_test_false tol max_iter st :
  loop_test tol max_iter st = false <-> (max_iter <= i st)%nat \/ error st <= tol.
Proof.
  unfold loop_test. rewrite andb_false_iff, Nat.ltb_ge.
  destruct (Rlt_dec tol (error st)); split; intros [H|H];
    auto; try discriminate; try lra.
Qed.

Section DriverFacts.

Variable brentq : (R -> R) -> R -> R -> nat -> result R.
Variable ifp : IFP.t.
Variable tol : R.
Variable max_iter : nat.
Variable verbose : bool.
Variable print_skip : nat.

Lemma while_loop_exit fuel st : loop_test tol max_iter st = false -> while_loop brentq ifp tol max_iter verbose print_skip fuel st = Ok st.
Proof. intros H. destruct fuel; simpl; now rewrite H. Qed.

Lemma while_loop_step fuel st :
  loop_test tol max_iter st = true ->
  while_loop brentq ifp tol max_iter verbose print_skip (S fuel) st = (st' <- loop_body brentq ifp verbose print_skip st ;; while_loop brentq ifp tol max_iter verbose print_skip fuel st').
Proof. intros H. simpl. now rewrite H. Qed.

Lemma while_loop_out_of_fuel st :
  loop_test tol max_iter st = true -> while_loop brentq ifp tol max_iter verbose print_skip 0 st = Raise OutOfFuel.
Proof. intros H. simpl. now rewrite H. Qed.

(** What one pass of the body does to the locals. *)
Lemma loop_body_inv st st' :
  loop_body brentq ifp verbose print_skip st = Ok st' ->
  exists c' e,
    K brentq (c st) ifp = Ok c' /\ sup_dist (c st) c' = Ok e
    /\ i st' = S (i st) /\ error st' = e /\ c st' = c'
    /\ c_new st' = Some c'.
Proof.
  unfold loop_body, sup_dist.
  destruct (K brentq (c st) ifp) as [c'|]; [|discriminate]. cbn [bind].
  destruct (np.sub (c st) c') as [d|] eqn:Hsub; [|discriminate].
  cbn [bind].
  destruct (np.max (np.abs d)) as [e|] eqn:Hmax; [|discriminate].
  cbn [bind].
  intros H. exists c', e. rewrite Hsub. cbn [bind]. rewrite Hmax.
  destruct verbose; [destruct (print_skip =? 0)%nat; [discriminate|];
                     destruct (_ mod _ =? 0)%nat|];
    cbn [bind] in H; inversion H; subst; cbn; repeat split.
Qed.

Lemma loop_body_ok st c' e :
  (verbose = true -> print_skip <> 0%nat) ->
  K brentq (c st) ifp = Ok c' ->
  sup_dist (c st) c' = Ok e ->
  exists out, loop_body brentq ifp verbose print_skip st = Ok (mk_locals (S (i st)) e c' (Some c') out).
Proof.
  intros Hprint HK Hd. unfold loop_body. unfold sup_dist in Hd.
  rewrite HK. cbn [bind].
  destruct (np.sub (c st) c') as [d|]; [|discriminate]. cbn [bind] in *.
  rewrite Hd. cbn [bind].
  destruct verbose.
  - destruct (Nat.eqb_spec print_skip 0); [now elim Hprint|].
    destruct (_ mod _ =? 0)%nat; eexists; reflexivity.
  - eexists; reflexivity.
Qed.

Lemma Iterating_count n policy e :
  Iterating brentq ifp tol max_iter n policy e -> (1 <= n)%nat.
Proof. induction 1; lia. Qed.

Lemma invariant_body st st' :
  loop_invariant brentq ifp tol max_iter st -> loop_test tol max_iter st = true -> loop_body brentq ifp verbose print_skip st = Ok st' -> loop_invariant brentq ifp tol max_iter st'.
Proof.
  intros Hinv Htest Hbody.
  apply loop_test_true in Htest. destruct Htest as [Hi He].
  destruct (loop_body_inv _ _ Hbody) as (c' & e & HK & Hd & Hi' & He' & Hc'
                                         & Hn').
  right. rewrite Hn', Hc', Hi', He'. split; [reflexivity|].
  split; [lia|].
  destruct Hinv as [(H0 & _ & _ & Hinit) | (_ & _ & Hit)].
  - rewrite H0. eapply Iterating_first; eassumption.
  - eapply Iterating_next; eassumption.
Qed.

(** The loop keeps the invariant and is left with the test false. *)
Lemma while_loop_sound fuel :
  forall st st',
    loop_invariant brentq ifp tol max_iter st -> while_loop brentq ifp tol max_iter verbose print_skip fuel st = Ok st' ->
    loop_invariant brentq ifp tol max_iter st' /\ ((max_iter <= i st')%nat \/ error st' <= tol).
Proof.
  induction fuel as [|fuel IH]; intros st st' Hinv Hrun.
  - destruct (loop_test tol max_iter st) eqn:Ht.
    + rewrite while_loop_out_of_fuel in Hrun by exact Ht. discriminate.
    + rewrite while_loop_exit in Hrun by exact Ht. inversion Hrun; subst.
      split; [exact Hinv | now apply loop_test_false].
  - destruct (loop_test tol max_iter st) eqn:Ht.
    + rewrite while_loop_step in Hrun by exact Ht.
      destruct (loop_body brentq ifp verbose print_skip st) as [st1|] eqn:Hb; [|discriminate].
      cbn [bind] in Hrun.
      apply (IH st1 st'); [|exact Hrun].
      eapply invariant_body; eassumption.
    + rewrite while_loop_exit in Hrun by exact Ht. inversion Hrun; subst.
      split; [exact Hinv | now apply loop_test_false].
Qed.

(** Every ITERATING state of the specification is a state of the loop. *)
Lemma Iterating_reached n policy e :
  (verbose = true -> print_skip <> 0%nat) ->
  (1 <= max_iter)%nat ->
  Iterating brentq ifp tol max_iter n policy e ->
  exists c0 out,
    c_init ifp = Ok c0
    /\ forall fuel,
         while_loop brentq ifp tol max_iter verbose print_skip (n + fuel) (mk_locals 0 (tol + 1) c0 None [])
         = while_loop brentq ifp tol max_iter verbose print_skip fuel (mk_locals n e policy (Some policy) out).
Proof.
  intros Hprint Hcap Hit. induction Hit as
    [c0 c1 e Hinit HK Hd | n c e c' e' Hit IH Hn He HK Hd].
  - destruct (loop_body_ok (mk_locals 0 (tol + 1) c0 None []) c1 e
                Hprint HK Hd) as [out Hb].
    exists c0, out. split; [exact Hinit|]. intros fuel.
    change (1 + fuel)%nat with (S fuel).
    rewrite while_loop_step.
    + rewrite Hb. reflexivity.
    + apply loop_test_true. cbn. split; [lia | lra].
  - destruct IH as (c0 & out & Hinit & Hrun).
    destruct (loop_body_ok (mk_locals n e c (Some c) out) c' e'
                Hprint HK Hd) as [out' Hb].
    exists c0, out'. split; [exact Hinit|]. intros fuel.
    replace (S n + fuel)%nat with (n + S fuel)%nat by lia.
    rewrite Hrun, while_loop_step.
    + rewrite Hb. reflexivity.
    + apply loop_test_true. cbn. split; [lia | lra].
Qed.

(** The value returned once the loop has been left. *)
Lemma solve_model_after_loop st :
  solve_loop brentq ifp tol max_iter verbose print_skip = Ok st ->
  solve_model brentq ifp tol max_iter verbose print_skip
  = match c_new st with
    | Some c_new =>
        Ok (c_new,
            (if verbose && (i st <? max_iter)%nat
             then fun out => out ++ [ConvergedIn (i st)] else fun out => out)
              (if (i st =? max_iter)%nat
               then stdout st ++ [FailedToConverge] else stdout st))
    | None => Raise UnboundLocalError
    end.
Proof.
  intros H. unfold solve_model. rewrite H. cbn [bind].
  destruct (c_new st); [|reflexivity].
  destruct (verbose && (i st <? max_iter)%nat); reflexivity.
Qed.

(** When the loop is left at least one pass has been made, the last
    computed array is bound to [c_new], and either the cap has been reached
    or the tolerance is met. *)
Lemma solve_loop_sound st :
  (1 <= max_iter)%nat ->
  solve_loop brentq ifp tol max_iter verbose print_skip = Ok st ->
  c_new st = Some (c st)
  /\ (i st <= max_iter)%nat
  /\ Iterating brentq ifp tol max_iter (i st) (c st) (error st)
  /\ (i st = max_iter \/ error st <= tol).
Proof.
  intros Hcap Hrun. unfold solve_loop in Hrun.
  destruct (c_init ifp) as [c0|] eqn:Hinit; [|discriminate].
  cbn [bind] in Hrun.
  apply while_loop_sound in Hrun.
  - destruct Hrun as [[(H0 & He & _) | (Hn & Hi & Hit)] Hexit].
    + exfalso. rewrite H0, He in Hexit. destruct Hexit; [lia | lra].
    + repeat split; try assumption. destruct Hexit; [left; lia | now right].
  - left. cbn. auto.
Qed.


End DriverFacts.

(** ** Shapes: the driver never leaves the arrays of [len(a_grid)] rows and
    two columns *)

Lemma list_set_middle (A : Type) (done : list A) x rest v :
  np.list_set (length done) v (done ++ x :: rest)
  = Some (done ++ v :: rest).
Proof.
  induction done as [|y done IH]; simpl; [reflexivity | now rewrite IH].
Qed.

Lemma nth_error_middle (A : Type) (done : list A) x rest :
  nth_error (done ++ x :: rest) (length done) = Some x.
Proof. induction done as [|y done IH]; simpl; auto. Qed.

Lemma setitem_middle_0 done u v rest w :
  np.setitem (done ++ [u; v] :: rest) (length done) 0 w
  = Ok (done ++ [w; v] :: rest).
Proof.
  unfold np.setitem. rewrite nth_error_middle. cbn [np.list_set].
  now rewrite list_set_middle.
Qed.

Lemma setitem_middle_1 done u v rest w :
  np.setitem (done ++ [u; v] :: rest) (length done) 1 w
  = Ok (done ++ [u; w] :: rest).
Proof.
  unfold np.setitem. rewrite nth_error_middle. cbn [np.list_set].
  now rewrite list_set_middle.
Qed.

Lemma has_shape_cons n row arr :
  has_shape (S n) (row :: arr) <-> length row = 2%nat /\ has_shape n arr.
Proof.
  unfold has_shape. rewrite Forall_cons_iff. simpl. intuition lia.
Qed.

Lemma has_shape_nil arr : has_shape 0 arr <-> arr = [].
Proof.
  unfold has_shape. split.
  - intros [H _]. now apply length_zero_iff_nil.
  - intros ->. split; [reflexivity | constructor].
Qed.

Lemma c_init_shape (grid : list R) :
  has_shape (length grid) (map (fun a => [a; a]) grid).
Proof.
  induction grid as [|a grid IH]; [now apply has_shape_nil|].
  cbn [length map]. apply has_shape_cons. now split.
Qed.

Lemma sub1_ok x :
  forall y, length x = length y ->
  exists r, np.sub1 x y = Ok r /\ length r = length x.
Proof.
  induction x as [|u x IH]; intros [|v y] Hlen; try discriminate.
  - exists []. now split.
  - destruct (IH y) as (r & Hr & Hl); [simpl in Hlen; lia|].
    exists (u - v :: r). cbn [np.sub1]. rewrite Hr. cbn.
    split; [reflexivity | now rewrite Hl].
Qed.

Lemma sub_ok n :
  forall x y, has_shape n x -> has_shape n y ->
  exists d, np.sub x y = Ok d /\ has_shape n d.
Proof.
  induction n as [|n IH]; intros x y Hx Hy.
  - apply has_shape_nil in Hx, Hy. subst. exists [].
    split; [reflexivity | now apply has_shape_nil].
  - destruct x as [|u x]; [destruct Hx; discriminate|].
    destruct y as [|v y]; [destruct Hy; discriminate|].
    apply has_shape_cons in Hx, Hy.
    destruct Hx as [Hu Hx], Hy as [Hv Hy].
    destruct (sub1_ok u v) as (r0 & Hr0 & Hl0); [lia|].
    destruct (IH x y Hx Hy) as (d & Hd & Hsd).
    exists (r0 :: d). cbn [np.sub]. rewrite Hr0. cbn [bind].
    rewrite Hd. cbn [bind]. split; [reflexivity|].
    apply has_shape_cons. split; [lia | exact Hsd].
Qed.

Lemma max_abs_ok n d :
  (0 < n)%nat -> has_shape n d -> exists e, np.max (np.abs d) = Ok e.
Proof.
  intros Hn H. destruct n as [|n]; [lia|].
  destruct d as [|row d]; [destruct H; discriminate|].
  apply has_shape_cons in H. destruct H as [Hrow _].
  destruct row as [|u row]; [discriminate|].
  unfold np.max, np.abs. cbn [map concat app]. eexists. reflexivity.
Qed.

Lemma sup_dist_ok n x y :
  (0 < n)%nat -> has_shape n x -> has_shape n y ->
  exists e, sup_dist x y = Ok e.
Proof.
  intros Hn Hx Hy. unfold sup_dist.
  destruct (sub_ok n x y Hx Hy) as (d & Hd & Hsd).
  rewrite Hd. cbn [bind]. now apply (max_abs_ok n).
Qed.

Section RootFinderReturns.

Variable brentq : (R -> R) -> R -> R -> nat -> result R.
Hypothesis brentq_returns : forall f a b m, exists r, brentq f a b m = Ok r.

Variable ifp : IFP.t.

(** The rows [k], [k+1], ... of the sweep of [K], the rows before them
    being [done]. *)
Lemma K_sweep c_vec m :
  forall k done todo,
    length done = k -> has_shape m todo ->
    exists rows,
      for_each (seq k m)
        (fun i c_new =>
           let a := nth i (IFP.a_grid ifp) 0 in
           for_each [0%nat; 1%nat]
             (fun z c_new =>
                c_star <- brentq (fun t => euler_diff t c_vec a z ifp)
                                 1e-10 a 12 ;;
                np.setitem c_new i z c_star)
             c_new)
        (done ++ todo)
      = Ok (done ++ rows)
      /\ has_shape m rows.
Proof.
  induction m as [|m IH]; intros k done todo Hk Htodo.
  - apply has_shape_nil in Htodo. subst todo. exists [].
    split; [reflexivity | now apply has_shape_nil].
  - destruct todo as [|row todo]; [destruct Htodo; discriminate|].
    apply has_shape_cons in Htodo. destruct Htodo as [Hrow Htodo].
    destruct row as [|u [|v [|w row]]]; try discriminate.
    subst k. cbn [seq for_each]. cbv zeta.
    destruct (brentq_returns
                (fun t => euler_diff t c_vec
                            (nth (length done) (IFP.a_grid ifp) 0) 0 ifp)
                1e-10 (nth (length done) (IFP.a_grid ifp) 0) 12)
      as [r0 H0].
    destruct (brentq_returns
                (fun t => euler_diff t c_vec
                            (nth (length done) (IFP.a_grid ifp) 0) 1 ifp)
                1e-10 (nth (length done) (IFP.a_grid ifp) 0) 12)
      as [r1 H1].
    rewrite H0. cbn [bind]. rewrite setitem_middle_0. cbn [bind].
    rewrite H1. cbn [bind]. rewrite setitem_middle_1. cbn [bind].
    destruct (IH (S (length done)) (done ++ [[r0; r1]]) todo)
      as (rows & Hrows & Hshape).
    + rewrite length_app. simpl. lia.
    + exact Htodo.
    + exists ([r0; r1] :: rows).
      rewrite <- !app_assoc in Hrows. cbn [app] in Hrows.
      split; [exact Hrows|]. apply has_shape_cons. now split.
Qed.

(** On an array of the right shape [K] returns an array of that shape. *)
Lemma K_ok c_vec :
  has_shape (length (IFP.a_grid ifp)) c_vec ->
  exists c', K brentq c_vec ifp = Ok c'
             /\ has_shape (length (IFP.a_grid ifp)) c'.
Proof.
  intros H. unfold K.
  destruct (K_sweep c_vec (length (IFP.a_grid ifp)) 0 [] c_vec
              eq_refl H) as (rows & Hrows & Hshape).
  exists rows. split; [exact Hrows | exact Hshape].
Qed.

Variable tol : R.
Variable max_iter : nat.
Variable verbose : bool.
Variable print_skip : nat.
Hypothesis print_skip_ok : verbose = true -> print_skip <> 0%nat.
Hypothesis grid_nonempty : IFP.a_grid ifp <> [].



End RootFinderReturns.

(** ** The error of a pass is the sup norm of the change *)

Lemma fold_left_Rmax_ge vs :
  forall v, v <= fold_left Rmax vs v
            /\ forall w, In w vs -> w <= fold_left Rmax vs v.
Proof.
  induction vs as [|u vs IH]; intros v; simpl.
  - split; [lra | tauto].
  - destruct (IH (Rmax v u)) as [H1 H2]. split.
    + apply Rle_trans with (Rmax v u); [apply Rmax_l | exact H1].
    + intros w [Hw|Hw]; [subst w | now apply H2].
      apply Rle_trans with (Rmax v u); [apply Rmax_r | exact H1].
Qed.

Lemma fold_left_Rmax_in vs :
  forall v, In (fold_left Rmax vs v) (v :: vs).
Proof.
  induction vs as [|u vs IH]; intros v; simpl; [now left|].
  destruct (IH (Rmax v u)) as [H|H]; [|now right; right].
  rewrite <- H. unfold Rmax. destruct (Rle_dec v u); [right; now left|].
  now left.
Qed.

(** [np.max] is an upper bound of the entries and is one of them. *)
Lemma max_spec arr e :
  np.max arr = Ok e ->
  (forall row v, In row arr -> In v row -> v <= e)
  /\ exists row, In row arr /\ In e row.
Proof.
  unfold np.max. destruct (concat arr) as [|v vs] eqn:Hc; [discriminate|].
  intros H. inversion H; subst e. clear H.
  destruct (fold_left_Rmax_ge vs v) as [H1 H2]. split.
  - intros row w Hrow Hw.
    assert (Hin : In w (concat arr))
      by (apply in_concat; exists row; now split).
    rewrite Hc in Hin. destruct Hin as [<-|Hin]; [exact H1 | now apply H2].
  - assert (Hin : In (fold_left Rmax vs v) (concat arr))
      by (rewrite Hc; apply fold_left_Rmax_in).
    apply in_concat in Hin. destruct Hin as (row & Hrow & Hin).
    now exists row.
Qed.

Lemma sub1_nth x :
  forall y r, np.sub1 x y = Ok r ->
  length r = length x
  /\ forall z, (z < length x)%nat -> nth z r 0 = nth z x 0 - nth z y 0.
Proof.
  induction x as [|u x IH]; intros [|v y] r H; try discriminate.
  - inversion H. split; [reflexivity | simpl; lia].
  - cbn [np.sub1] in H.
    destruct (np.sub1 x y) as [r'|] eqn:Hr; [|discriminate].
    cbn [bind] in H. inversion H; subst r.
    destruct (IH y r' Hr) as [Hl Hn]. split; [simpl; lia|].
    intros [|z] Hz; [reflexivity|]. simpl. apply Hn. simpl in Hz. lia.
Qed.

Lemma sub_nth x :
  forall y d, np.sub x y = Ok d ->
  length d = length x
  /\ forall i, (i < length x)%nat ->
       length (nth i d []) = length (nth i x [])
       /\ forall z, (z < length (nth i x []))%nat ->
            getitem2 d i z = getitem2 x i z - getitem2 y i z.
Proof.
  induction x as [|u x IH]; intros [|v y] d H; try discriminate.
  - inversion H. split; [reflexivity | simpl; lia].
  - cbn [np.sub] in H.
    destruct (np.sub1 u v) as [r0|] eqn:Hr0; [|discriminate].
    cbn [bind] in H.
    destruct (np.sub x y) as [d'|] eqn:Hd; [|discriminate].
    cbn [bind] in H. inversion H; subst d.
    destruct (sub1_nth u v r0 Hr0) as [Hl0 Hn0].
    destruct (IH y d' Hd) as [Hl Hn]. split; [simpl; lia|].
    intros [|i] Hi.
    + split; [exact Hl0 | exact Hn0].
    + apply Hn. simpl in Hi. lia.
Qed.

(** [sup_dist c c_new] is the largest [|c[i,z] - c_new[i,z]|]. *)
Lemma sup_dist_sup_norm x y e :
  sup_dist x y = Ok e ->
  (forall i z, (i < length x)%nat -> (z < length (nth i x []))%nat ->
     Rabs (getitem2 x i z - getitem2 y i z) <= e)
  /\ exists i z, (i < length x)%nat /\ (z < length (nth i x []))%nat
       /\ e = Rabs (getitem2 x i z - getitem2 y i z).
Proof.
  unfold sup_dist.
  destruct (np.sub x y) as [d|] eqn:Hd; [|discriminate]. cbn [bind].
  intros Hmax. destruct (sub_nth x y d Hd) as [Hl Hn].
  destruct (max_spec _ _ Hmax) as [Hub (row & Hrow & Hin)]. split.
  - intros i z Hi Hz. destruct (Hn i Hi) as [Hlz Hnz].
    rewrite <- (Hnz z Hz).
    apply (Hub (map Rabs (nth i d []))).
    + unfold np.abs. apply in_map. apply nth_In. lia.
    + unfold getitem2. apply in_map. apply nth_In. lia.
  - unfold np.abs in Hrow. apply in_map_iff in Hrow.
    destruct Hrow as (drow & <- & Hdrow).
    apply in_map_iff in Hin. destruct Hin as (w & <- & Hw).
    destruct (In_nth _ _ [] Hdrow) as (i & Hi & Hnth).
    subst drow.
    destruct (In_nth _ _ 0 Hw) as (z & Hz & Hnthz).
    rewrite Hl in Hi. destruct (Hn i Hi) as [Hlz Hnz].
    exists i, z. split; [exact Hi|]. split; [lia|].
    rewrite <- Hnz by lia. unfold getitem2. now rewrite Hnthz.
Qed.



(** ** C6: what the caller receives *)

(** A run capped at one pass. *)
Lemma solve_loop_one_pass brentq ifp tol print_skip c0 c1 e :
  c_init ifp = Ok c0 ->
  K brentq c0 ifp = Ok c1 ->
  sup_dist c0 c1 = Ok e ->
  solve_loop brentq ifp tol 1 false print_skip
  = Ok (mk_locals 1 e c1 (Some c1) []).
Proof.
  intros Hinit HK Hd. unfold solve_loop. rewrite Hinit. cbn [bind].
  rewrite while_loop_step
    by (apply loop_test_true; cbn; split; [lia | lra]).
  destruct (loop_body_ok brentq ifp false print_skip
              (mk_locals 0 (tol + 1) c0 None []) c1 e
              ltac:(discriminate) HK Hd) as [out Hb].
  assert (Hout : out = []).
  { unfold loop_body in Hb. cbn [c] in Hb. rewrite HK in Hb.
    unfold sup_dist in Hd. cbn [bind] in Hb.
    destruct (np.sub c0 c1); [|discriminate]. cbn [bind] in Hb, Hd.
    rewrite Hd in Hb. cbn in Hb. now inversion Hb. }
  subst out. rewrite Hb. cbn [bind].
  apply while_loop_exit. apply loop_test_false. left. cbn. lia.
Qed.

(** As soon as one application of [K] moves the initial policy, the array
    handed back cannot tell a converged run from one stopped by the cap. *)
Lemma array_does_not_tell_convergence brentq ifp c0 c1 e :
  c_init ifp = Ok c0 ->
  K brentq c0 ifp = Ok c1 ->
  sup_dist c0 c1 = Ok e ->
  0 < e ->
  ~ result_carries_flag_and_count brentq.
Proof.
  intros Hinit HK Hd He (flag_of & count_of & Hcarry).
  assert (Hrun : forall tol,
            solve_model brentq ifp tol 1 false 4 = Ok (c1, [FailedToConverge])).
  { intros tol.
    rewrite (solve_model_after_loop _ _ _ _ _ _ _
               (solve_loop_one_pass brentq ifp tol 4 c0 c1 e Hinit HK Hd)).
    reflexivity. }
  destruct (Hcarry ifp (e / 2) 1%nat false 4%nat _ c1 [FailedToConverge]
              ltac:(lra) ltac:(lia)
              (solve_loop_one_pass brentq ifp (e / 2) 4 c0 c1 e Hinit HK Hd)
              (Hrun (e / 2))) as [Hlow _].
  destruct (Hcarry ifp e 1%nat false 4%nat _ c1 [FailedToConverge]
              ltac:(lra) ltac:(lia)
              (solve_loop_one_pass brentq ifp e 4 c0 c1 e Hinit HK Hd)
              (Hrun e)) as [Hhigh _].
  cbn [error] in Hlow, Hhigh.
  assert (Hflag : flag_of c1 = true) by (apply Hhigh; lra).
  apply Hlow in Hflag. lra.
Qed.

Lemma floor_distance_pos : 1 < floor_distance.
Proof.
  unfold floor_distance.
  apply Rlt_le_trans with (Rabs (2 - 1e-10)); [|apply Rmax_r].
  rewrite Rabs_pos_eq; lra.
Qed.

Lemma lower_end_first_pass :
  c_init ifp_two_states = Ok c_vec_all
  /\ K lower_end c_vec_all ifp_two_states = Ok c_vec_floor
  /\ sup_dist c_vec_all c_vec_floor = Ok floor_distance.
Proof. repeat split; reflexivity. Qed.

(** C6 (as stated) fails -- with a root finder that answers with the lower
    end of its bracket, a run with tolerance [floor_distance / 2] and cap 1
    stops at the cap without converging, a run with tolerance
    [floor_distance] and cap 1 converges, and both hand back the same
    array and nothing else: no flag and no count come with it. *)
Lemma solve_model_result_has_no_flag :
  ~ result_carries_flag_and_count lower_end.
Proof.
  destruct lower_end_first_pass as (Hinit & HK & Hd).
  apply (array_does_not_tell_convergence lower_end ifp_two_states
           c_vec_all c_vec_floor floor_distance Hinit HK Hd).
  pose proof floor_distance_pos. lra.
Qed.

(** C6 (as amended) -- For every run with a cap of at least 1 whose loop is
    left, also by exhausting the cap with the error above the tolerance,
    [solve_model] does not fail: it returns the last computed policy array
    and only that array; the cap having been reached is reported by the
    printed line "Failed to converge!", which appears exactly when the
    iteration count equals the cap. *)
Theorem solve_model_returns_array_only brentq ifp tol max_iter verbose
    print_skip st :
  (1 <= max_iter)%nat ->
  solve_loop brentq ifp tol max_iter verbose print_skip = Ok st ->
  (i st = max_iter \/ error st <= tol)
  /\ (1 <= i st <= max_iter)%nat
  /\ Iterating brentq ifp tol max_iter (i st) (c st) (error st)
  /\ solve_model brentq ifp tol max_iter verbose print_skip
     = Ok (c st,
           stdout st
           ++ (if (i st =? max_iter)%nat then [FailedToConverge] else [])
           ++ (if verbose && (i st <? max_iter)%nat
               then [ConvergedIn (i st)] else [])).
Proof.
  intros Hcap Hloop.
  destruct (solve_loop_sound _ _ _ _ _ _ st Hcap Hloop)
    as (Hn & Hi & Hit & Hexit).
  pose proof (Iterating_count _ _ _ _ _ _ _ Hit) as H1.
  repeat split; try assumption.
  rewrite (solve_model_after_loop _ _ _ _ _ _ st Hloop), Hn.
  destruct (i st =? max_iter)%nat;
    destruct (verbose && (i st <? max_iter)%nat);
    rewrite ?app_nil_r, <- ?app_assoc; reflexivity.
Qed.

(** The amended C6 at a run stopped by the cap after one pass, the error
    [floor_distance] still above the tolerance 1. *)
Lemma solve_model_returns_array_only_witness :
  (1%nat = 1%nat \/ floor_distance <= 1)
  /\ (1 <= 1 <= 1)%nat
  /\ Iterating lower_end ifp_two_states 1 1 1 c_vec_floor floor_distance
  /\ solve_model lower_end ifp_two_states 1 1 false 4
     = Ok (c_vec_floor, [FailedToConverge]).
Proof.
  apply (solve_model_returns_array_only lower_end ifp_two_states 1 1 false 4
           (mk_locals 1 floor_distance c_vec_floor (Some c_vec_floor) [])).
  - lia.
  - apply (solve_loop_one_pass lower_end ifp_two_states 1 4 c_vec_all);
      reflexivity.
Defined.

(** ** C3: zero assets *)

(** At the first grid point, where assets are 0, [K] stores whatever the
    root finder answers for the bracket from 1e-10 down to 0: the floor
    with a root finder answering the lower end, 0 with one answering the
    upper end.  The notebook does not fix the answer. *)
Lemma K_at_zero_assets_follows_root_finder :
  nth 0 (IFP.a_grid ifp_two_states) 0 = 0
  /\ K lower_end c_vec_all ifp_two_states
     = Ok [[1e-10; 1e-10]; [1e-10; 1e-10]]
  /\ K upper_end c_vec_all ifp_two_states = Ok [[0; 0]; [2; 2]].
Proof. repeat split; reflexivity. Qed.

(** * Further properties of the code *)

(** ** The operator [K] on an array of the right shape *)

Lemma for_each_cons (A S : Type) (x : A) xs (body : A -> S -> result S) s :
  for_each (x :: xs) body s = (s' <- body x s ;; for_each xs body s').
Proof. reflexivity. Qed.

Lemma for_each_app (A S : Type) (xs ys : list A)
    (body : A -> S -> result S) :
  forall s,
    for_each (xs ++ ys) body s
    = (s' <- for_each xs body s ;; for_each ys body s').
Proof.
  induction xs as [|x xs IH]; intros s; [reflexivity|].
  cbn [app for_each]. destruct (body x s); cbn [bind]; [apply IH|].
  reflexivity.
Qed.

(** On rows of two cells the sweep writes, row after row, the two roots of
    [K_row], and stops at the first exception of the root finder. *)
Lemma K_sweep_rows brentq ifp c_vec m :
  forall k done todo,
    length done = k -> has_shape m todo ->
    for_each (seq k m)
      (fun i c_new =>
         let a := nth i (IFP.a_grid ifp) 0 in
         for_each [0%nat; 1%nat]
           (fun z c_new =>
              c_star <- brentq (fun t => euler_diff t c_vec a z ifp)
                               1e-10 a 12%nat ;;
              np.setitem c_new i z c_star)
           c_new)
      (done ++ todo)
    = (rows <- traverse (K_row brentq c_vec ifp) (seq k m) ;;
       Ok (done ++ rows)).
Proof.
  set (body := fun i c_new =>
         let a := nth i (IFP.a_grid ifp) 0 in
         for_each [0%nat; 1%nat]
           (fun z c_new =>
              c_star <- brentq (fun t => euler_diff t c_vec a z ifp)
                               1e-10 a 12%nat ;;
              np.setitem c_new i z c_star)
           c_new).
  induction m as [|m IH]; intros k done todo Hk Htodo.
  - apply has_shape_nil in Htodo. subst todo. reflexivity.
  - destruct todo as [|row todo]; [destruct Htodo; discriminate|].
    apply has_shape_cons in Htodo. destruct Htodo as [Hrow Htodo].
    destruct row as [|u [|v [|w row]]]; try discriminate.
    subst k. cbn [seq traverse]. rewrite for_each_cons.
    unfold body at 1. unfold K_row at 1. cbv zeta. cbn [for_each].
    destruct (brentq
                (fun t => euler_diff t c_vec
                            (nth (length done) (IFP.a_grid ifp) 0) 0 ifp)
                1e-10 (nth (length done) (IFP.a_grid ifp) 0) 12%nat)
      as [r0|e0]; cbn [bind]; [|reflexivity].
    rewrite setitem_middle_0. cbn [bind].
    destruct (brentq
                (fun t => euler_diff t c_vec
                            (nth (length done) (IFP.a_grid ifp) 0) 1 ifp)
                1e-10 (nth (length done) (IFP.a_grid ifp) 0) 12%nat)
      as [r1|e1]; cbn [bind]; [|reflexivity].
    rewrite setitem_middle_1. cbn [bind].
    replace (done ++ [r0; r1] :: todo) with ((done ++ [[r0; r1]]) ++ todo)
      by (now rewrite <- app_assoc).
    rewrite (IH (S (length done)) (done ++ [[r0; r1]]) todo);
      [|rewrite length_app; simpl; lia | exact Htodo].
    destruct (traverse (K_row brentq c_vec ifp) (seq (S (length done)) m));
      cbn [bind]; [|reflexivity].
    now rewrite <- app_assoc.
Qed.

(** On an array of [len(a_grid)] rows and two columns, [K] is the row-wise
    map of [K_row]. *)
Lemma K_rowwise brentq ifp c_vec :
  has_shape (length (IFP.a_grid ifp)) c_vec ->
  K brentq c_vec ifp
  = traverse (K_row brentq c_vec ifp) (seq 0 (length (IFP.a_grid ifp))).
Proof.
  intros H. unfold K.
  pose proof (K_sweep_rows brentq ifp c_vec (length (IFP.a_grid ifp)) 0 []
                c_vec eq_refl H) as Hsweep.
  cbn [app] in Hsweep. rewrite Hsweep.
  destruct (traverse _ _); reflexivity.
Qed.

Lemma traverse_ok_inv (A B : Type) (f : A -> result B) xs :
  forall ys, traverse f xs = Ok ys ->
  length ys = length xs
  /\ forall k d d', (k < length xs)%nat -> f (nth k xs d) = Ok (nth k ys d').
Proof.
  induction xs as [|x xs IH]; intros ys H.
  - inversion H. split; [reflexivity | simpl; lia].
  - cbn [traverse] in H. destruct (f x) as [y|] eqn:Hy; [|discriminate].
    cbn [bind] in H.
    destruct (traverse f xs) as [ys'|] eqn:Hys; [|discriminate].
    cbn [bind] in H. inversion H; subst ys.
    destruct (IH ys' eq_refl) as [Hl Hn]. split; [simpl; lia|].
    intros [|k] d d' Hk; [exact Hy|]. simpl. apply Hn. simpl in Hk. lia.
Qed.

Lemma traverse_first_failure (A B : Type) (f : A -> result B) xs :
  forall k d e,
    (k < length xs)%nat ->
    (forall j, (j < k)%nat -> exists y, f (nth j xs d) = Ok y) ->
    f (nth k xs d) = Raise e ->
    traverse f xs = Raise e.
Proof.
  induction xs as [|x xs IH]; intros k d e Hk Hbefore Hfail;
    [simpl in Hk; lia|].
  cbn [traverse]. destruct k as [|k].
  - simpl in Hfail. now rewrite Hfail.
  - destruct (Hbefore 0%nat ltac:(lia)) as [y Hy]. simpl in Hy.
    rewrite Hy. cbn [bind].
    rewrite (IH k d e); [reflexivity | simpl in Hk; lia | | exact Hfail].
    intros j Hj. apply (Hbefore (S j)). lia.
Qed.

Lemma K_row_inv brentq c_vec ifp i row :
  K_row brentq c_vec ifp i = Ok row ->
  exists r0 r1,
    row = [r0; r1]
    /\ brentq (fun t => euler_diff t c_vec (nth i (IFP.a_grid ifp) 0) 0 ifp)
         1e-10 (nth i (IFP.a_grid ifp) 0) 12%nat = Ok r0
    /\ brentq (fun t => euler_diff t c_vec (nth i (IFP.a_grid ifp) 0) 1 ifp)
         1e-10 (nth i (IFP.a_grid ifp) 0) 12%nat = Ok r1.
Proof.
  unfold K_row. cbv zeta.
  destruct (brentq _ _ _ _) as [r0|] eqn:H0; [|discriminate]. cbn [bind].
  destruct (brentq _ _ _ _) as [r1|] eqn:H1 in |- *; [|discriminate].
  cbn [bind]. intros H. inversion H. now exists r0, r1.
Qed.

(** What [K] returns on an array of the right shape. *)
Lemma K_ok_inv brentq ifp c_vec c_new :
  has_shape (length (IFP.a_grid ifp)) c_vec ->
  K brentq c_vec ifp = Ok c_new ->
  has_shape (length (IFP.a_grid ifp)) c_new
  /\ forall i z,
       (i < length (IFP.a_grid ifp))%nat -> (z < 2)%nat ->
       brentq (fun t => euler_diff t c_vec (nth i (IFP.a_grid ifp) 0) z ifp)
         1e-10 (nth i (IFP.a_grid ifp) 0) 12%nat
       = Ok (getitem2 c_new i z).
Proof.
  intros Hshape HK. rewrite (K_rowwise _ _ _ Hshape) in HK.
  destruct (traverse_ok_inv _ _ _ _ _ HK) as [Hlen Hrows].
  rewrite length_seq in Hlen, Hrows.
  assert (Hrow : forall i, (i < length (IFP.a_grid ifp))%nat ->
            K_row brentq c_vec ifp i = Ok (nth i c_new [])).
  { intros i Hi. specialize (Hrows i 0%nat [] Hi).
    now rewrite seq_nth in Hrows by exact Hi. }
  split.
  - split; [exact Hlen|]. apply Forall_forall. intros row Hin.
    destruct (In_nth _ _ [] Hin) as (i & Hi & <-).
    rewrite Hlen in Hi.
    destruct (K_row_inv _ _ _ _ _ (Hrow i Hi)) as (r0 & r1 & -> & _).
    reflexivity.
  - intros i z Hi Hz.
    destruct (K_row_inv _ _ _ _ _ (Hrow i Hi)) as (r0 & r1 & Hr & H0 & H1).
    unfold getitem2. rewrite Hr.
    destruct z as [|[|z]]; [exact H0 | exact H1 | lia].
Qed.

(** X1 -- When [K] returns on a policy array of [len(a_grid)] rows and two
    columns, the array it returns has that shape, and its entry [(i, z)]
    is the root [brentq] reports for the residual
    [t -> euler_diff(t, c_vec, a_grid[i], z, ifp)] on the bracket from 1e-10
    to [a_grid[i]] with [maxiter = 12]: no cell keeps what
    [np.empty_like] left in it. *)
Theorem K_entries_are_roots brentq ifp c_vec c_new :
  has_shape (length (IFP.a_grid ifp)) c_vec ->
  K brentq c_vec ifp = Ok c_new ->
  has_shape (length (IFP.a_grid ifp)) c_new
  /\ forall i z,
       (i < length (IFP.a_grid ifp))%nat -> (z < 2)%nat ->
       brentq (fun t => euler_diff t c_vec (nth i (IFP.a_grid ifp) 0) z ifp)
         1e-10 (nth i (IFP.a_grid ifp) 0) 12%nat
       = Ok (getitem2 c_new i z).
Proof. apply K_ok_inv. Qed.

Lemma K_entries_are_roots_witness :
  has_shape (length (IFP.a_grid ifp_two_states)) c_vec_floor
  /\ forall i z,
       (i < length (IFP.a_grid ifp_two_states))%nat -> (z < 2)%nat ->
       lower_end
         (fun t => euler_diff t c_vec_all
                     (nth i (IFP.a_grid ifp_two_states) 0) z ifp_two_states)
         1e-10 (nth i (IFP.a_grid ifp_two_states) 0) 12%nat
       = Ok (getitem2 c_vec_floor i z).
Proof.
  apply (K_entries_are_roots lower_end ifp_two_states c_vec_all c_vec_floor).
  - split; [reflexivity | repeat constructor].
  - reflexivity.
Defined.

(** X2 -- On a policy array of the right shape, an exception raised by
    [brentq] at grid point [(i, z)], every earlier call in the order of the
    two loops having returned, is the exception [K] raises: no array is
    returned and the later grid points are not visited. *)
Theorem K_raises_first_root_finder_exception brentq ifp c_vec i z e :
  has_shape (length (IFP.a_grid ifp)) c_vec ->
  (i < length (IFP.a_grid ifp))%nat ->
  (z < 2)%nat ->
  (forall i' z',
     (i' < i)%nat \/ (i' = i /\ (z' < z)%nat) -> (z' < 2)%nat ->
     exists r,
       brentq (fun t => euler_diff t c_vec (nth i' (IFP.a_grid ifp) 0) z' ifp)
         1e-10 (nth i' (IFP.a_grid ifp) 0) 12%nat = Ok r) ->
  brentq (fun t => euler_diff t c_vec (nth i (IFP.a_grid ifp) 0) z ifp)
    1e-10 (nth i (IFP.a_grid ifp) 0) 12%nat = Raise e ->
  K brentq c_vec ifp = Raise e.
Proof.
  intros Hshape Hi Hz Hbefore Hfail. rewrite (K_rowwise _ _ _ Hshape).
  apply (traverse_first_failure _ _ _ _ i 0%nat e).
  - now rewrite length_seq.
  - intros j Hj. rewrite seq_nth by lia. cbn [Nat.add].
    destruct (Hbefore j 0%nat ltac:(lia) ltac:(lia)) as [r0 H0].
    destruct (Hbefore j 1%nat ltac:(lia) ltac:(lia)) as [r1 H1].
    exists [r0; r1]. unfold K_row. cbv zeta. rewrite H0. cbn [bind].
    rewrite H1. reflexivity.
  - rewrite seq_nth by lia. cbn [Nat.add]. unfold K_row. cbv zeta.
    destruct z as [|[|z]]; [| |lia].
    + now rewrite Hfail.
    + destruct (Hbefore i 0%nat ltac:(lia) ltac:(lia)) as [r0 H0].
      rewrite H0. cbn [bind]. now rewrite Hfail.
Qed.

Lemma K_raises_first_root_finder_exception_witness :
  K no_bracket c_vec_all ifp_two_states = Raise ValueError.
Proof.
  apply (K_raises_first_root_finder_exception no_bracket ifp_two_states
           c_vec_all 0 0 ValueError).
  - split; [reflexivity | repeat constructor].
  - simpl. lia.
  - lia.
  - intros i' z' [H|[_ H]] _; lia.
  - reflexivity.
Defined.

Lemma traverse_K_row_ok brentq ifp c_vec :
  (forall f a b m, exists r, brentq f a b m = Ok r) ->
  forall xs, exists rows,
    traverse (K_row brentq c_vec ifp) xs = Ok rows
    /\ length rows = length xs.
Proof.
  intros Hbq. induction xs as [|x xs [rows [Hrows Hlen]]].
  - exists []. now split.
  - cbn [traverse]. unfold K_row at 1. cbv zeta.
    destruct (Hbq (fun t => euler_diff t c_vec
                              (nth x (IFP.a_grid ifp) 0) 0 ifp)
                1e-10 (nth x (IFP.a_grid ifp) 0) 12%nat) as [r0 H0].
    destruct (Hbq (fun t => euler_diff t c_vec
                              (nth x (IFP.a_grid ifp) 0) 1 ifp)
                1e-10 (nth x (IFP.a_grid ifp) 0) 12%nat) as [r1 H1].
    rewrite H0. cbn [bind]. rewrite H1. cbn [bind]. rewrite Hrows.
    cbn [bind]. exists ([r0; r1] :: rows). split; [reflexivity|].
    simpl. now rewrite Hlen.
Qed.

(** X3 -- Handed a policy array with fewer rows than the grid has points
    (each of two cells), [K] computes the rows that exist and then raises
    [IndexError] at the first missing row, the root finder returning
    throughout. *)
Theorem K_raises_IndexError_on_short_array brentq ifp c_vec m :
  has_shape m c_vec ->
  (m < length (IFP.a_grid ifp))%nat ->
  (forall f a b k, exists r, brentq f a b k = Ok r) ->
  K brentq c_vec ifp = Raise IndexError.
Proof.
  intros Hshape Hm Hbq. unfold K.
  replace (length (IFP.a_grid ifp))
    with (m + S (length (IFP.a_grid ifp) - S m))%nat by lia.
  rewrite seq_app, for_each_app.
  pose proof (K_sweep_rows brentq ifp c_vec m 0 [] c_vec eq_refl Hshape)
    as Hsweep.
  cbn [app] in Hsweep. rewrite Hsweep.
  destruct (traverse_K_row_ok brentq ifp c_vec Hbq (seq 0 m))
    as (rows & Hrows & Hlen).
  rewrite Hrows. cbn [bind]. rewrite length_seq in Hlen.
  cbn [seq Nat.add]. rewrite for_each_cons. cbv zeta. cbn [for_each].
  destruct (Hbq (fun t => euler_diff t c_vec
                            (nth m (IFP.a_grid ifp) 0) 0 ifp)
              1e-10 (nth m (IFP.a_grid ifp) 0) 12%nat) as [r0 H0].
  rewrite H0. cbn [bind]. unfold np.setitem at 1.
  replace (nth_error rows m) with (@None (list R))
    by (symmetry; apply nth_error_None; lia).
  reflexivity.
Qed.

Lemma K_raises_IndexError_on_short_array_witness :
  K lower_end [[0; 0]] ifp_two_states = Raise IndexError.
Proof.
  apply (K_raises_IndexError_on_short_array lower_end ifp_two_states
           [[0; 0]] 1).
  - split; [reflexivity | repeat constructor].
  - simpl. lia.
  - intros f a b k. exists a. reflexivity.
Defined.

(** ** The driver at its edges *)

(** X4 -- With [max_iter = 0] the loop body never runs, [c_new] is never
    bound, and [solve_model] ends in [UnboundLocalError] whatever the model,
    the tolerance and the reporting options. *)
Theorem solve_model_zero_cap_unbound brentq ifp tol verbose print_skip :
  solve_model brentq ifp tol 0 verbose print_skip = Raise UnboundLocalError.
Proof.
  unfold solve_model, solve_loop. rewrite c_init_eq. cbn [bind].
  rewrite while_loop_exit by reflexivity. cbn [bind c_new]. reflexivity.
Qed.

(** The first pass on an empty grid. *)
Lemma solve_model_on_empty_grid brentq ifp tol max_iter verbose
    print_skip :
  IFP.a_grid ifp = [] ->
  (1 <= max_iter)%nat ->
  solve_model brentq ifp tol max_iter verbose print_skip = Raise ValueError.
Proof.
  intros Hgrid Hcap. unfold solve_model, solve_loop.
  rewrite c_init_eq, Hgrid. cbn [map bind].
  destruct max_iter as [|fuel]; [lia|].
  rewrite while_loop_step
    by (apply loop_test_true; cbn; split; [lia | lra]).
  unfold loop_body, K. cbn [c]. rewrite Hgrid. reflexivity.
Qed.

(** X5 -- On a model whose asset grid is empty (built with
    [grid_size = 0]) and a cap of at least 1, [solve_model] raises
    [ValueError]: the first sweep of [K] has nothing to do and [np.max] is
    applied to an array without elements.  The root finder is never
    called. *)
Theorem solve_model_empty_grid_ValueError brentq ifp tol max_iter verbose
    print_skip :
  IFP.a_grid ifp = [] ->
  (1 <= max_iter)%nat ->
  solve_model brentq ifp tol max_iter verbose print_skip = Raise ValueError.
Proof. apply solve_model_on_empty_grid. Qed.

Lemma solve_model_empty_grid_ValueError_witness :
  solve_model no_bracket (IFP.mk 2 (/2) default_P default_σ_vec 0 [] [0] [1])
    1 1 false 4
  = Raise ValueError.
Proof.
  apply (solve_model_empty_grid_ValueError no_bracket
           (IFP.mk 2 (/2) default_P default_σ_vec 0 [] [0] [1]) 1 1 false 4).
  - reflexivity.
  - lia.
Defined.

(** X6 -- With progress reports on and [print_skip = 0], a non-empty grid,
    a cap of at least 1 and a root finder that returns, [solve_model]
    raises [ZeroDivisionError] at the end of the first pass, when
    [i % print_skip] is evaluated. *)
Theorem solve_model_zero_print_skip brentq ifp tol max_iter :
  (forall f a b m, exists r, brentq f a b m = Ok r) ->
  IFP.a_grid ifp <> [] ->
  (1 <= max_iter)%nat ->
  solve_model brentq ifp tol max_iter true 0 = Raise ZeroDivisionError.
Proof.
  intros Hbq Hgrid Hcap. unfold solve_model, solve_loop.
  rewrite c_init_eq. cbn [bind].
  destruct max_iter as [|fuel]; [lia|].
  rewrite while_loop_step
    by (apply loop_test_true; cbn; split; [lia | lra]).
  destruct (K_ok brentq Hbq ifp _ (c_init_shape (IFP.a_grid ifp)))
    as (c1 & HK & Hshape1).
  assert (Hn : (0 < length (IFP.a_grid ifp))%nat).
  { destruct (IFP.a_grid ifp); [now elim Hgrid | simpl; lia]. }
  destruct (sup_dist_ok _ _ _ Hn (c_init_shape (IFP.a_grid ifp)) Hshape1)
    as [e He].
  unfold sup_dist in He. unfold loop_body. cbn [c]. rewrite HK. cbn [bind].
  destruct (np.sub _ c1); [|discriminate]. cbn [bind] in He |- *.
  rewrite He. reflexivity.
Qed.

Lemma solve_model_zero_print_skip_witness :
  solve_model lower_end ifp_two_states 1 5 true 0 = Raise ZeroDivisionError.
Proof.
  apply (solve_model_zero_print_skip lower_end ifp_two_states 1 5).
  - intros f a b m. exists a. reflexivity.
  - discriminate.
  - lia.
Defined.

Lemma Iterating_shape brentq ifp tol max_iter n policy e :
  Iterating brentq ifp tol max_iter n policy e ->
  has_shape (length (IFP.a_grid ifp)) policy /\ 0 <= e.
Proof.
  assert (Hpos : forall x y d, sup_dist x y = Ok d -> 0 <= d).
  { intros x y d Hd.
    destruct (sup_dist_sup_norm _ _ _ Hd) as [_ (i & z & _ & _ & ->)].
    apply Rabs_pos. }
  induction 1 as [c0 c1 e Hinit HK Hd | n c e c' e' Hit [IH _] Hn He HK Hd].
  - rewrite c_init_eq in Hinit. inversion Hinit; subst c0.
    split; [|now apply (Hpos _ _ _ Hd)].
    rewrite (K_rowwise _ _ _ (c_init_shape _)) in HK.
    destruct (traverse_ok_inv _ _ _ _ _ HK) as [Hlen Hrows].
    rewrite length_seq in Hlen, Hrows.
    split; [exact Hlen|]. apply Forall_forall. intros row Hin.
    destruct (In_nth _ _ [] Hin) as (i & Hi & <-). rewrite Hlen in Hi.
    specialize (Hrows i 0%nat [] Hi).
    destruct (K_row_inv _ _ _ _ _ Hrows) as (r0 & r1 & -> & _).
    reflexivity.
  - split; [|now apply (Hpos _ _ _ Hd)].
    rewrite (K_rowwise _ _ _ IH) in HK.
    destruct (traverse_ok_inv _ _ _ _ _ HK) as [Hlen Hrows].
    rewrite length_seq in Hlen, Hrows.
    split; [exact Hlen|]. apply Forall_forall. intros row Hin.
    destruct (In_nth _ _ [] Hin) as (i & Hi & <-). rewrite Hlen in Hi.
    specialize (Hrows i 0%nat [] Hi).
    destruct (K_row_inv _ _ _ _ _ Hrows) as (r0 & r1 & -> & _).
    reflexivity.
Qed.

(** X7 -- Whenever [solve_model] returns, the array it returns has
    [len(a_grid)] rows and two columns, whatever the root finder answered
    on the way. *)
Theorem solve_model_result_shape brentq ifp tol max_iter verbose print_skip
    policy out :
  solve_model brentq ifp tol max_iter verbose print_skip = Ok (policy, out) ->
  has_shape (length (IFP.a_grid ifp)) policy.
Proof.
  intros Hret. destruct max_iter as [|cap].
  - unfold solve_model, solve_loop in Hret. rewrite c_init_eq in Hret.
    cbn [bind] in Hret. rewrite while_loop_exit in Hret by reflexivity.
    discriminate.
  - destruct (solve_loop brentq ifp tol (S cap) verbose print_skip)
      as [st|] eqn:Hloop;
      [|unfold solve_model in Hret; rewrite Hloop in Hret; discriminate].
    rewrite (solve_model_after_loop _ _ _ _ _ _ st Hloop) in Hret.
    destruct (solve_loop_sound brentq ifp tol (S cap) verbose print_skip st
                ltac:(lia) Hloop)
      as (Hn & _ & Hit & _).
    rewrite Hn in Hret. inversion Hret; subst.
    exact (proj1 (Iterating_shape _ _ _ _ _ _ _ Hit)).
Qed.

Lemma solve_model_result_shape_witness :
  has_shape (length (IFP.a_grid ifp_two_states)) c_vec_floor.
Proof.
  apply (solve_model_result_shape lower_end ifp_two_states 1 1 false 4
           c_vec_floor [FailedToConverge]).
  unfold solve_model.
  rewrite (solve_loop_one_pass lower_end ifp_two_states 1 4 c_vec_all
             c_vec_floor floor_distance); reflexivity.
Defined.

(** X8 -- An exception that [K] raises in any pass the loop makes, the
    first or a later one, is raised by [solve_model]: the policy computed
    so far is not returned. *)
Theorem solve_model_raises_what_K_raises brentq ifp tol max_iter verbose
    print_skip policy e :
  (verbose = true -> print_skip <> 0%nat) ->
  (c_init ifp = Ok policy /\ (1 <= max_iter)%nat)
  \/ (exists n err,
        Iterating brentq ifp tol max_iter n policy err
        /\ (n < max_iter)%nat /\ tol < err) ->
  K brentq policy ifp = Raise e ->
  solve_model brentq ifp tol max_iter verbose print_skip = Raise e.
Proof.
  intros Hprint Hreach HK. unfold solve_model, solve_loop.
  destruct Hreach as [[Hinit Hcap] | (n & err & Hit & Hn & Herr)].
  - rewrite Hinit. cbn [bind]. destruct max_iter as [|fuel]; [lia|].
    rewrite while_loop_step
      by (apply loop_test_true; cbn; split; [lia | lra]).
    unfold loop_body. cbn [c]. now rewrite HK.
  - destruct (Iterating_reached brentq ifp tol max_iter verbose print_skip
                n policy err Hprint ltac:(lia) Hit)
      as (c0 & out & Hinit & Hrun).
    rewrite Hinit. cbn [bind].
    replace max_iter with (n + S (max_iter - S n))%nat at 2 by lia.
    rewrite Hrun, while_loop_step
      by (apply loop_test_true; cbn; split; [lia | lra]).
    unfold loop_body. cbn [c]. now rewrite HK.
Qed.

Lemma solve_model_raises_what_K_raises_witness :
  solve_model no_bracket ifp_two_states 1 5 false 4 = Raise ValueError.
Proof.
  apply (solve_model_raises_what_K_raises no_bracket ifp_two_states 1 5
           false 4 c_vec_all ValueError).
  - discriminate.
  - left. split; [reflexivity | lia].
  - reflexivity.
Defined.

(** X9 -- The error [np.max(np.abs(c - c_new))] left by the loop is never
    negative; so with a negative tolerance no pass ever meets it and the
    loop always runs the full [max_iter] passes. *)
Theorem solve_loop_error_nonnegative brentq ifp tol max_iter verbose
    print_skip st :
  (1 <= max_iter)%nat ->
  solve_loop brentq ifp tol max_iter verbose print_skip = Ok st ->
  0 <= error st /\ (tol < 0 -> i st = max_iter).
Proof.
  intros Hcap Hloop.
  destruct (solve_loop_sound brentq ifp tol max_iter verbose print_skip st
              Hcap Hloop) as (_ & _ & Hit & Hexit).
  destruct (Iterating_shape _ _ _ _ _ _ _ Hit) as [_ Hpos].
  split; [exact Hpos|]. intros Htol. destruct Hexit; [assumption | lra].
Qed.

Lemma solve_loop_error_nonnegative_witness :
  0 <= floor_distance /\ (-1 < 0 -> 1%nat = 1%nat).
Proof.
  apply (solve_loop_error_nonnegative lower_end ifp_two_states (-1) 1 false 4
           (mk_locals 1 floor_distance c_vec_floor (Some c_vec_floor) [])).
  - lia.
  - apply (solve_loop_one_pass lower_end ifp_two_states (-1) 4 c_vec_all);
      reflexivity.
Defined.

Lemma floor_distance_le : floor_distance <= 2.
Proof.
  unfold floor_distance.
  repeat apply Rmax_lub; apply Rabs_le; lra.
Qed.

(** X10 -- "Failed to converge!" is printed whenever the loop is left with
    the iteration count equal to the cap, also when the last pass met the
    tolerance: a run that converges exactly on its last allowed pass
    returns its policy with that line printed, and without the line
    "Converged in ... iterations". *)
Theorem solve_model_reports_failure_on_last_pass brentq ifp tol max_iter
    verbose print_skip st :
  (1 <= max_iter)%nat ->
  solve_loop brentq ifp tol max_iter verbose print_skip = Ok st ->
  i st = max_iter ->
  error st <= tol ->
  solve_model brentq ifp tol max_iter verbose print_skip
  = Ok (c st, stdout st ++ [FailedToConverge]).
Proof.
  intros Hcap Hloop Hi _.
  destruct (solve_loop_sound brentq ifp tol max_iter verbose print_skip st
              Hcap Hloop) as (Hn & _).
  rewrite (solve_model_after_loop _ _ _ _ _ _ st Hloop), Hn, Hi.
  rewrite Nat.eqb_refl, Nat.ltb_irrefl, andb_false_r. reflexivity.
Qed.

Lemma solve_model_reports_failure_on_last_pass_witness :
  solve_model lower_end ifp_two_states 3 1 false 4
  = Ok (c_vec_floor, [FailedToConverge]).
Proof.
  apply (solve_model_reports_failure_on_last_pass lower_end ifp_two_states
           3 1 false 4
           (mk_locals 1 floor_distance c_vec_floor (Some c_vec_floor) [])).
  - lia.
  - apply (solve_loop_one_pass lower_end ifp_two_states 3 4 c_vec_all);
      reflexivity.
  - reflexivity.
  - cbn [error]. pose proof floor_distance_le. lra.
Defined.

Lemma while_loop_silent brentq ifp tol max_iter print_skip print_skip' fuel :
  forall st,
    while_loop brentq ifp tol max_iter false print_skip fuel st
    = while_loop brentq ifp tol max_iter false print_skip' fuel st
    /\ forall st',
         while_loop brentq ifp tol max_iter false print_skip fuel st = Ok st'
         -> stdout st' = stdout st.
Proof.
  induction fuel as [|fuel IH]; intros st.
  - split; [reflexivity|]. simpl. destruct (loop_test tol max_iter st);
      intros st' H; [discriminate | now inversion H].
  - cbn [while_loop]. destruct (loop_test tol max_iter st).
    + change (loop_body brentq ifp false print_skip' st)
        with (loop_body brentq ifp false print_skip st).
      destruct (loop_body brentq ifp false print_skip st) as [st1|] eqn:Hb;
        cbn [bind]; [|split; [reflexivity | discriminate]].
      destruct (IH st1) as [Heq Hout]. split; [exact Heq|].
      intros st' H. rewrite (Hout st' H).
      unfold loop_body in Hb.
      destruct (K brentq (c st) ifp); [|discriminate]. cbn [bind] in Hb.
      destruct (np.sub (c st) a); [|discriminate]. cbn [bind] in Hb.
      destruct (np.max (np.abs a0)); [|discriminate]. cbn [bind] in Hb.
      now inversion Hb.
    + split; [reflexivity|]. intros st' H. now inversion H.
Qed.

(** X11 -- With [verbose=False] the value of [print_skip] has no effect on
    [solve_model], not even 0, and the only line a returning run can print
    is "Failed to converge!". *)
Theorem solve_model_silent brentq ifp tol max_iter print_skip :
  (forall print_skip',
     solve_model brentq ifp tol max_iter false print_skip'
     = solve_model brentq ifp tol max_iter false print_skip)
  /\ forall policy out,
       solve_model brentq ifp tol max_iter false print_skip
       = Ok (policy, out) ->
       out = [] \/ out = [FailedToConverge].
Proof.
  split.
  - intros print_skip'. unfold solve_model, solve_loop.
    destruct (c_init ifp) as [c0|]; [|reflexivity]. cbn [bind].
    now rewrite (proj1 (while_loop_silent brentq ifp tol max_iter
                          print_skip' print_skip max_iter _)).
  - intros policy out Hret. unfold solve_model, solve_loop in Hret.
    destruct (c_init ifp) as [c0|]; [|discriminate]. cbn [bind] in Hret.
    destruct (while_loop brentq ifp tol max_iter false print_skip max_iter
                (mk_locals 0 (tol + 1) c0 None [])) as [st|] eqn:Hloop;
      [|discriminate].
    apply (proj2 (while_loop_silent brentq ifp tol max_iter print_skip
                    print_skip max_iter _)) in Hloop.
    cbn [bind andb stdout] in Hret, Hloop. rewrite Hloop in Hret.
    destruct (c_new st); [|discriminate].
    destruct (i st =? max_iter)%nat; inversion Hret; auto.
Qed.

Lemma div_succ i p :
  p <> 0%nat ->
  (S i / p = i / p + (if (S i mod p =? 0) then 1 else 0))%nat.
Proof.
  intros Hp.
  pose proof (Nat.div_mod_eq i p) as Hi.
  pose proof (Nat.mod_upper_bound i p Hp) as Hr.
  destruct (Nat.eq_dec (S (i mod p)) p) as [E|E].
  - assert (Hq : (S (i / p) = S i / p)%nat)
      by (apply (Nat.div_unique _ _ _ 0); nia).
    assert (Hm : (0 = S i mod p)%nat)
      by (apply (Nat.mod_unique _ _ (S (i / p))); nia).
    rewrite <- Hm, <- Hq. simpl. lia.
  - assert (Hq : (i / p = S i / p)%nat)
      by (apply (Nat.div_unique _ _ _ (S (i mod p))); nia).
    assert (Hm : (S (i mod p) = S i mod p)%nat)
      by (apply (Nat.mod_unique _ _ (i / p)); nia).
    rewrite <- Hm, <- Hq. simpl. lia.
Qed.

Lemma while_loop_progress_lines brentq ifp tol max_iter print_skip fuel :
  forall st st',
    while_loop brentq ifp tol max_iter true print_skip fuel st = Ok st' ->
    length (stdout st) = (i st / print_skip)%nat ->
    Forall (fun l => exists k e,
              l = ErrorAtIteration k e /\ (1 <= k <= i st)%nat
              /\ (k mod print_skip = 0)%nat) (stdout st) ->
    length (stdout st') = (i st' / print_skip)%nat
    /\ Forall (fun l => exists k e,
                 l = ErrorAtIteration k e /\ (1 <= k <= i st')%nat
                 /\ (k mod print_skip = 0)%nat) (stdout st').
Proof.
  induction fuel as [|fuel IH]; intros st st' Hrun Hlen Hall.
  - simpl in Hrun. destruct (loop_test tol max_iter st); [discriminate|].
    inversion Hrun; subst. now split.
  - cbn [while_loop] in Hrun.
    destruct (loop_test tol max_iter st);
      [|inversion Hrun; subst; now split].
    destruct (loop_body brentq ifp true print_skip st) as [st1|] eqn:Hb;
      [|discriminate].
    cbn [bind] in Hrun. apply (IH st1 st' Hrun); clear Hrun IH;
      unfold loop_body in Hb;
      (destruct (K brentq (c st) ifp); [|discriminate]); cbn [bind] in Hb;
      (destruct (np.sub (c st) a); [|discriminate]); cbn [bind] in Hb;
      (destruct (np.max (np.abs a0)) as [e|]; [|discriminate]);
      cbn [bind] in Hb;
      (destruct (Nat.eqb_spec print_skip 0) as [|Hp]; [discriminate|]);
      (destruct (Nat.eqb_spec (S (i st) mod print_skip) 0) as [Hm|Hm]);
      cbn [bind] in Hb; inversion Hb; subst st1; cbn [stdout i].
    + rewrite length_app, Hlen, (div_succ _ _ Hp), Hm. reflexivity.
    + rewrite Hlen, (div_succ _ _ Hp).
      destruct (Nat.eqb_spec (S (i st) mod print_skip) 0); lia.
    + apply Forall_app. split.
      * eapply Forall_impl; [|exact Hall]. cbv beta.
        intros l (k & e' & -> & Hk & Hkm). exists k, e'.
        repeat split; auto; lia.
      * constructor; [|constructor]. exists (S (i st)), e.
        repeat split; auto; lia.
    + eapply Forall_impl; [|exact Hall]. cbv beta.
      intros l (k & e' & -> & Hk & Hkm). exists k, e'.
      repeat split; auto; lia.
Qed.

(** X12 -- With [verbose=True], when the loop is left after [i] passes it
    has printed exactly [i // print_skip] progress lines, each of them
    "Error at iteration k is ..." for a pass number [k] between 1 and [i]
    that is a multiple of [print_skip]. *)
Theorem solve_loop_progress_lines brentq ifp tol max_iter print_skip st :
  solve_loop brentq ifp tol max_iter true print_skip = Ok st ->
  length (stdout st) = (i st / print_skip)%nat
  /\ Forall (fun l => exists k e,
               l = ErrorAtIteration k e /\ (1 <= k <= i st)%nat
               /\ (k mod print_skip = 0)%nat) (stdout st).
Proof.
  unfold solve_loop. destruct (c_init ifp) as [c0|]; [|discriminate].
  cbn [bind]. intros Hrun.
  apply (while_loop_progress_lines _ _ _ _ _ _ _ _ Hrun).
  - cbn [stdout i length]. destruct print_skip; reflexivity.
  - constructor.
Qed.

Lemma solve_loop_progress_lines_witness :
  length [ErrorAtIteration 1 floor_distance] = (1 / 1)%nat
  /\ Forall (fun l => exists k e,
               l = ErrorAtIteration k e /\ (1 <= k <= 1)%nat
               /\ (k mod 1 = 0)%nat) [ErrorAtIteration 1 floor_distance].
Proof.
  apply (solve_loop_progress_lines lower_end ifp_two_states 1 1 1
           (mk_locals 1 floor_distance c_vec_floor (Some c_vec_floor)
              [ErrorAtIteration 1 floor_distance])).
  unfold solve_loop. rewrite c_init_eq. cbn [bind].
  rewrite while_loop_step
    by (apply loop_test_true; cbn; split; [lia | lra]).
  change (loop_body lower_end ifp_two_states true 1
            (mk_locals 0 (1 + 1)
               (map (fun a => [a; a]) (IFP.a_grid ifp_two_states)) None []))
    with (Ok (mk_locals 1 floor_distance c_vec_floor (Some c_vec_floor)
                [ErrorAtIteration 1 floor_distance])).
  cbn [bind]. apply while_loop_exit. apply loop_test_false. left. cbn. lia.
Defined.

(** X13 -- If one application of [K] returns the initial policy unchanged,
    the first pass measures the error 0 and, for every tolerance that is
    not negative and every cap of at least 1, the loop is left after that
    single pass with the initial policy as the result. *)
Theorem solve_loop_stops_at_fixed_point brentq ifp tol max_iter verbose
    print_skip c0 :
  (verbose = true -> print_skip <> 0%nat) ->
  IFP.a_grid ifp <> [] ->
  0 <= tol ->
  (1 <= max_iter)%nat ->
  c_init ifp = Ok c0 ->
  K brentq c0 ifp = Ok c0 ->
  exists out,
    solve_loop brentq ifp tol max_iter verbose print_skip
    = Ok (mk_locals 1 0 c0 (Some c0) out).
Proof.
  intros Hprint Hgrid Htol Hcap Hinit HK.
  assert (Hshape : has_shape (length (IFP.a_grid ifp)) c0).
  { rewrite c_init_eq in Hinit. inversion Hinit. apply c_init_shape. }
  assert (Hn : (0 < length (IFP.a_grid ifp))%nat).
  { destruct (IFP.a_grid ifp); [now elim Hgrid | simpl; lia]. }
  destruct (sup_dist_ok _ _ _ Hn Hshape Hshape) as [e He].
  assert (He0 : e = 0).
  { destruct (sup_dist_sup_norm _ _ _ He) as [_ (k & z & _ & _ & ->)].
    rewrite Rminus_diag. apply Rabs_R0. }
  subst e.
  destruct (loop_body_ok brentq ifp verbose print_skip
              (mk_locals 0 (tol + 1) c0 None []) c0 0 Hprint HK He)
    as [out Hb].
  exists out. unfold solve_loop. rewrite Hinit. cbn [bind].
  destruct max_iter as [|fuel]; [lia|].
  rewrite while_loop_step
    by (apply loop_test_true; cbn; split; [lia | lra]).
  rewrite Hb. cbn [bind]. apply while_loop_exit. apply loop_test_false.
  right. cbn. exact Htol.
Qed.

Lemma solve_loop_stops_at_fixed_point_witness :
  exists out,
    solve_loop upper_end ifp_two_states 1 5 false 4
    = Ok (mk_locals 1 0 c_vec_all (Some c_vec_all) out).
Proof.
  apply (solve_loop_stops_at_fixed_point upper_end ifp_two_states 1 5
           false 4 c_vec_all).
  - discriminate.
  - discriminate.
  - lra.
  - lia.
  - reflexivity.
  - reflexivity.
Defined.

(** ** The constructor's grid and draws *)

Lemma increasing_map_seq (f : nat -> R) :
  (forall k, f k < f (S k)) ->
  forall m k, increasing (map f (seq k m)).
Proof.
  intros Hf. induction m as [|m IH]; intros k; [exact I|].
  destruct m as [|m]; [exact I|].
  change (increasing (f k :: map f (seq (S k) (S m)))).
  specialize (IH (S k)). cbn [seq map] in IH |- *.
  split; [apply Hf | exact IH].
Qed.

Lemma increasing_nondecreasing l : increasing l -> nondecreasing l.
Proof.
  induction l as [|x [|y l] IH]; try exact (fun _ => I).
  intros [Hxy Hl]. split; [lra | now apply IH].
Qed.

Lemma map_seq_shift (g : nat -> R) m :
  forall k, map (fun j => g (k + j)%nat) (seq 0 m) = map g (seq k m).
Proof.
  induction m as [|m IH]; intros k; [reflexivity|].
  cbn [seq map]. rewrite Nat.add_0_r. f_equal.
  rewrite <- seq_shift, map_map, <- IH.
  apply map_ext. intros j. f_equal. lia.
Qed.

(** The grid [np.linspace(0, grid_max, grid_size)] with at least two
    points and a positive [grid_max]. *)
Lemma linspace_grid grid_max grid_size grid :
  np.linspace 0 grid_max grid_size = Ok grid ->
  (2 <= grid_size)%Z ->
  0 < grid_max ->
  length grid = Z.to_nat grid_size
  /\ (forall k, (k < Z.to_nat grid_size)%nat ->
        nth k grid 0 = INR k * (grid_max / INR (Z.to_nat grid_size - 1)))
  /\ increasing grid.
Proof.
  unfold np.linspace. destruct (Z.ltb_spec grid_size 0) as [Hneg|Hneg].
  { intros _ Hsize. lia. }
  intros Heq Hsize Hmax. inversion Heq as [Hgrid]. clear Heq.
  set (n := Z.to_nat grid_size) in *.
  assert (Hn : (2 <= n)%nat) by (unfold n; lia).
  assert (Hdiv : (0 <? n - 1)%nat = true) by (apply Nat.ltb_lt; lia).
  rewrite Hdiv.
  assert (Hstep : 0 < grid_max / INR (n - 1)).
  { apply Rdiv_lt_0_compat; [exact Hmax|]. apply lt_0_INR. lia. }
  split; [now rewrite length_map, length_seq|]. split.
  - intros k Hk.
    rewrite (nth_indep _ 0 (0 + INR 0 * ((grid_max - 0) / INR (n - 1))))
      by (now rewrite length_map, length_seq).
    rewrite (map_nth (fun i => 0 + INR i * ((grid_max - 0) / INR (n - 1)))).
    rewrite seq_nth by exact Hk. cbn [Nat.add].
    rewrite Rminus_0_r. lra.
  - apply increasing_map_seq. intros k. rewrite S_INR, Rminus_0_r. nra.
Qed.

(** X14 -- Built with [grid_size >= 2] and [grid_max > 0], the model's asset
    grid has [grid_size] points, equally spaced by
    [grid_max / (grid_size - 1)], starts at 0, ends at [grid_max] and is
    strictly increasing. *)
Theorem init_grid_from_zero_to_grid_max seeded g γ β P σ_vec s
    shock_draw_size grid_max grid_size ifp g' :
  IFP.__init__ seeded g γ β P σ_vec s shock_draw_size grid_max grid_size
    = Ok (ifp, g') ->
  (2 <= grid_size)%Z ->
  0 < grid_max ->
  length (IFP.a_grid ifp) = Z.to_nat grid_size
  /\ (forall k, (k < Z.to_nat grid_size)%nat ->
        nth k (IFP.a_grid ifp) 0
        = INR k * (grid_max / INR (Z.to_nat grid_size - 1)))
  /\ nth 0 (IFP.a_grid ifp) 0 = 0
  /\ nth (Z.to_nat grid_size - 1) (IFP.a_grid ifp) 0 = grid_max
  /\ increasing (IFP.a_grid ifp).
Proof.
  intros Hinit Hsize Hmax.
  destruct (init_inv _ _ _ _ _ _ _ _ _ _ _ _ Hinit)
    as (_ & _ & _ & _ & _ & Hgrid & _).
  destruct (linspace_grid _ _ _ Hgrid Hsize Hmax) as (Hlen & Hnth & Hinc).
  repeat split; try assumption.
  - rewrite Hnth by lia. simpl. lra.
  - rewrite Hnth by lia. field.
    apply not_0_INR. lia.
Qed.

Lemma init_grid_from_zero_to_grid_max_witness :
  length (IFP.a_grid ifp_two_states) = Z.to_nat 2
  /\ (forall k, (k < Z.to_nat 2)%nat ->
        nth k (IFP.a_grid ifp_two_states) 0
        = INR k * (2 / INR (Z.to_nat 2 - 1)))
  /\ nth 0 (IFP.a_grid ifp_two_states) 0 = 0
  /\ nth (Z.to_nat 2 - 1) (IFP.a_grid ifp_two_states) 0 = 2
  /\ increasing (IFP.a_grid ifp_two_states).
Proof.
  apply (init_grid_from_zero_to_grid_max counting_rng (fun _ => 0) 2 (/2)
           [[0.8; 0.2]; [0.7; 0.3]] [0; 0] 0 1 2 2 ifp_two_states
           (fun j => INR (1 + (1 + j)))).
  - exact two_states_constructed.
  - lia.
  - lra.
Defined.

(** X15 -- Construction overwrites the state of the generator that the
    compiled constructor draws from (Numba's own, [IFP] being a
    [@jitclass]; NumPy's global generator is not involved): the two draw
    sequences are, one after the other, the first [2 * shock_draw_size]
    draws of that generator seeded with 1234, and it is left just behind
    them, whatever state it was in before. *)
Theorem init_reseeds_generator seeded g γ β P σ_vec s shock_draw_size
    grid_max grid_size ifp g' :
  IFP.__init__ seeded g γ β P σ_vec s shock_draw_size grid_max grid_size
    = Ok (ifp, g') ->
  IFP.η_draws ifp ++ IFP.ζ_draws ifp
  = map (seeded 1234%Z)
      (seq 0 (Z.to_nat shock_draw_size + Z.to_nat shock_draw_size))
  /\ forall j,
       g' j
       = seeded 1234%Z
           (Z.to_nat shock_draw_size + Z.to_nat shock_draw_size + j)%nat.
Proof.
  intros Hinit.
  destruct (init_draws _ _ _ _ _ _ _ _ _ _ _ _ Hinit) as [Hη Hζ].
  split.
  - rewrite Hη, Hζ, seq_app, map_app, map_seq_shift. reflexivity.
  - unfold IFP.__init__, np.randn in Hinit.
    destruct (shock_draw_size <? 0)%Z; [discriminate|].
    cbn [bind] in Hinit.
    destruct (np.linspace 0 grid_max grid_size); [|discriminate].
    cbn [bind] in Hinit. inversion Hinit. intros j.
    now rewrite Nat.add_assoc.
Qed.

Lemma init_reseeds_generator_witness :
  IFP.η_draws ifp_two_states ++ IFP.ζ_draws ifp_two_states
  = map (counting_rng 1234%Z) (seq 0 (Z.to_nat 1 + Z.to_nat 1))
  /\ forall j,
       INR (1 + (1 + j))
       = counting_rng 1234%Z (Z.to_nat 1 + Z.to_nat 1 + j)%nat.
Proof.
  apply (init_reseeds_generator counting_rng (fun _ => 0) 2 (/2)
           [[0.8; 0.2]; [0.7; 0.3]] [0; 0] 0 1 2 2 ifp_two_states
           (fun j => INR (1 + (1 + j)))).
  exact two_states_constructed.
Defined.

(** ** The residual *)

Lemma column_of_c_init (grid : list R) z :
  (z < 2)%nat -> np.column z (map (fun a => [a; a]) grid) = grid.
Proof.
  intros Hz. unfold np.column. rewrite map_map.
  rewrite <- (map_id grid) at 2. apply map_ext. intros a.
  destruct z as [|[|z]]; [reflexivity | reflexivity | lia].
Qed.

(** X16 -- In the first pass of [solve_model] on a model built with
    [shock_draw_size > 0], [grid_size >= 2] and [grid_max > 0], with γ > 0,
    β >= 0 and non-negative
    transition probabilities out of [z], the residual that the root finder
    is handed -- [euler_diff] against the initial policy "consume all
    assets" -- is strictly decreasing in [t] over (0, a] for every asset
    level [a]. *)
Theorem first_pass_residual_strictly_decreasing seeded g γ β P σ_vec s
    shock_draw_size grid_max grid_size ifp g' c0 a z :
  IFP.__init__ seeded g γ β P σ_vec s shock_draw_size grid_max grid_size
    = Ok (ifp, g') ->
  (0 < shock_draw_size)%Z ->
  (2 <= grid_size)%Z ->
  0 < grid_max ->
  0 < γ ->
  0 <= β ->
  (forall z', (z' < 2)%nat -> 0 <= getitem2 P z z') ->
  c_init ifp = Ok c0 ->
  strictly_decreasing_on (fun t => euler_diff t c0 a z ifp) a.
Proof.
  intros Hinit _ Hsize Hmax Hγ Hβ HP Hc0.
  destruct (init_inv _ _ _ _ _ _ _ _ _ _ _ _ Hinit)
    as (Eγ & Eβ & EP & _ & _ & Hgrid & _).
  destruct (linspace_grid _ _ _ Hgrid Hsize Hmax) as (Hlen & Hnth & Hinc).
  rewrite c_init_eq in Hc0. inversion Hc0; subst c0.
  assert (H0 : nth 0 (IFP.a_grid ifp) 0 = 0)
    by (rewrite Hnth by lia; simpl; lra).
  assert (H1 : 0 < nth 1 (IFP.a_grid ifp) 0).
  { rewrite Hnth by lia. simpl. rewrite Rmult_1_l.
    apply Rdiv_lt_0_compat; [exact Hmax|]. apply lt_0_INR. lia. }
  apply residual_strictly_decreasing.
  - now rewrite Eγ.
  - now rewrite Eβ.
  - exact Hinc.
  - exact H0.
  - now rewrite length_map.
  - intros z' Hz'. rewrite (column_of_c_init _ _ Hz').
    split; [now apply increasing_nondecreasing|]. split; [lra | exact H1].
  - intros z' Hz'. rewrite EP. now apply HP.
Qed.

Lemma first_pass_residual_strictly_decreasing_witness :
  strictly_decreasing_on
    (fun t => euler_diff t c_vec_all 1 0 ifp_two_states) 1.
Proof.
  apply (first_pass_residual_strictly_decreasing counting_rng (fun _ => 0)
           2 (/2) [[0.8; 0.2]; [0.7; 0.3]] [0; 0] 0 1 2 2 ifp_two_states
           (fun j => INR (1 + (1 + j))) c_vec_all 1 0).
  - exact two_states_constructed.
  - lia.
  - lia.
  - lra.
  - lra.
  - lra.
  - intros z' Hz. destruct z' as [|[|z']]; [| |lia];
      unfold getitem2; simpl; lra.
  - reflexivity.
Defined.

(** X17 -- For a candidate consumption [0 < t <= a], at least one η draw
    and a previous policy whose interpolated consumption is positive at
    every point where the loops evaluate it, the residual does not exceed
    [u_prime(t) - u_prime(a)], because of the term
    [max(β * Ez, u_prime(a))]; at [t = a], the upper end of the bracket
    that [K] hands to the root finder, it is therefore never positive, and
    it is 0 exactly when [β * Ez] does not exceed [u_prime(a)]. *)
Theorem euler_diff_upper_end t c_vec a z ifp :
  0 < t ->
  t <= a ->
  IFP.η_draws ifp <> [] ->
  (forall z_hat η ζ,
     (z_hat < 2)%nat -> In η (IFP.η_draws ifp) -> In ζ (IFP.ζ_draws ifp) ->
     0 < interp (IFP.a_grid ifp) (np.column z_hat c_vec)
           (IFP.R ifp z_hat ζ * (a - t) + IFP.Y ifp η)) ->
  euler_diff t c_vec a z ifp <= IFP.u_prime ifp t - IFP.u_prime ifp a
  /\ (t = a ->
      euler_diff t c_vec a z ifp <= 0
      /\ (euler_diff t c_vec a z ifp = 0
          <-> IFP.β ifp
              * (euler_loops t c_vec a z ifp
                 / (INR (length (IFP.η_draws ifp))
                    * INR (length (IFP.η_draws ifp))))
              <= IFP.u_prime ifp a)).
Proof.
  intros _ _ _ _. unfold euler_diff. cbv zeta.
  set (N := INR (length (IFP.η_draws ifp)) * INR (length (IFP.η_draws ifp))).
  pose proof (Rmax_r (IFP.β ifp * (euler_loops t c_vec a z ifp / N))
                (IFP.u_prime ifp a)) as Hmax.
  split; [lra|]. intros ->. split; [lra|].
  unfold Rmax.
  destruct (Rle_dec (IFP.β ifp * (euler_loops a c_vec a z ifp / N))
              (IFP.u_prime ifp a)); split; intros; lra.
Qed.

(** X17 at [t = a = 1] on the two-state model against the policy "consume
    all assets", where next period's consumption is 1. *)
Lemma euler_diff_upper_end_witness :
  euler_diff 1 c_vec_all 1 0 ifp_two_states
  <= IFP.u_prime ifp_two_states 1 - IFP.u_prime ifp_two_states 1
  /\ (1 = 1 ->
      euler_diff 1 c_vec_all 1 0 ifp_two_states <= 0
      /\ (euler_diff 1 c_vec_all 1 0 ifp_two_states = 0
          <-> IFP.β ifp_two_states
              * (euler_loops 1 c_vec_all 1 0 ifp_two_states
                 / (INR (length (IFP.η_draws ifp_two_states))
                    * INR (length (IFP.η_draws ifp_two_states))))
              <= IFP.u_prime ifp_two_states 1)).
Proof.
  apply (euler_diff_upper_end 1 c_vec_all 1 0 ifp_two_states).
  - lra.
  - lra.
  - discriminate.
  - intros z_hat η ζ Hz _ _.
    rewrite R_unit_scale, Y_unit_scale; try reflexivity.
    + destruct z_hat as [|[|z_hat]]; [| |lia]; cbn; lra.
    + destruct z_hat as [|[|z_hat]]; [| |lia]; reflexivity.
Defined.

(** X18 -- [euler_diff] reads the transition matrix only at [P[z, 0]] and
    [P[z, 1]], the scale vector only at [σ_vec[0]] and [σ_vec[1]], and the
    policy array only in its columns 0 and 1: changing anything else in
    them leaves the residual unchanged. *)
Theorem euler_diff_reads_states_0_and_1 t a z γ β P P' σ_vec σ_vec' s
    a_grid η_draws ζ_draws c_vec c_vec' :
  (forall z', (z' < 2)%nat ->
     getitem2 P z z' = getitem2 P' z z'
     /\ nth z' σ_vec 0 = nth z' σ_vec' 0
     /\ np.column z' c_vec = np.column z' c_vec') ->
  euler_diff t c_vec a z (IFP.mk γ β P σ_vec s a_grid η_draws ζ_draws)
  = euler_diff t c_vec' a z (IFP.mk γ β P' σ_vec' s a_grid η_draws ζ_draws).
Proof.
  intros H. rewrite !euler_diff_unfold.
  assert (Hc : forall z', (z' < 2)%nat ->
            state_contribution t c_vec a z
              (IFP.mk γ β P σ_vec s a_grid η_draws ζ_draws) z'
            = state_contribution t c_vec' a z
                (IFP.mk γ β P' σ_vec' s a_grid η_draws ζ_draws) z').
  { intros z' Hz'. destruct (H z' Hz') as (HP & Hσ & Hcol).
    unfold state_contribution, euler_term, IFP.R, IFP.Y, IFP.u_prime.
    cbn [IFP.η_draws IFP.ζ_draws IFP.σ_vec IFP.s IFP.γ IFP.P IFP.a_grid].
    now rewrite HP, Hσ, Hcol. }
  rewrite (Hc 0%nat), (Hc 1%nat) by lia. reflexivity.
Qed.

Lemma euler_diff_reads_states_0_and_1_witness :
  euler_diff 1 c_vec_ones 2 0
    (IFP.mk 2 (/2) P3 [0; 0; 0] 0 [0; 1] [0] [1])
  = euler_diff 1 [[1; 1; 7]; [1; 1; 9]] 2 0
      (IFP.mk 2 (/2) [[/4; /4; 5]; [1; 2; 3]] [0; 0; 8] 0 [0; 1] [0] [1]).
Proof.
  apply (euler_diff_reads_states_0_and_1 1 2 0 2 (/2) P3
           [[/4; /4; 5]; [1; 2; 3]] [0; 0; 0] [0; 0; 8] 0 [0; 1] [0] [1]
           c_vec_ones [[1; 1; 7]; [1; 1; 9]]).
  intros z' Hz. destruct z' as [|[|z']]; [| |lia]; repeat split.
Defined.

(** X19 -- For γ > 0 the marginal utility [u_prime] is positive and
    strictly decreasing on positive consumption. *)
Theorem u_prime_positive_decreasing ifp x y :
  0 < IFP.γ ifp -> 0 < x -> x < y ->
  0 < IFP.u_prime ifp y /\ IFP.u_prime ifp y < IFP.u_prime ifp x.
Proof.
  intros Hγ Hx Hxy. split.
  - unfold IFP.u_prime, Rpower. apply exp_pos.
  - now apply u_prime_strict.
Qed.

Lemma u_prime_positive_decreasing_witness :
  0 < IFP.u_prime ifp_two_states 2
  /\ IFP.u_prime ifp_two_states 2 < IFP.u_prime ifp_two_states 1.
Proof.
  apply (u_prime_positive_decreasing ifp_two_states 1 2).
  - simpl. lra.
  - lra.
  - lra.
Defined.

(** ** End to end *)

(** X20 -- Every entry of the policy array [solve_model] returns is a root
    reported by [brentq] in the last sweep: there is a policy array [prev]
    of the same shape, the previous iterate, such that entry [(i, z)] of the
    result is the answer of [brentq] for the residual against [prev] at
    [a_grid[i]] on the bracket from 1e-10 to [a_grid[i]]. *)
Theorem solve_model_returns_last_sweep brentq ifp tol max_iter verbose
    print_skip policy out :
  solve_model brentq ifp tol max_iter verbose print_skip = Ok (policy, out) ->
  exists prev,
    has_shape (length (IFP.a_grid ifp)) prev
    /\ K brentq prev ifp = Ok policy
    /\ forall i z,
         (i < length (IFP.a_grid ifp))%nat -> (z < 2)%nat ->
         brentq (fun t => euler_diff t prev (nth i (IFP.a_grid ifp) 0) z ifp)
           1e-10 (nth i (IFP.a_grid ifp) 0) 12%nat
         = Ok (getitem2 policy i z).
Proof.
  intros Hret. destruct max_iter as [|cap].
  - unfold solve_model, solve_loop in Hret. rewrite c_init_eq in Hret.
    cbn [bind] in Hret. rewrite while_loop_exit in Hret by reflexivity.
    discriminate.
  - destruct (solve_loop brentq ifp tol (S cap) verbose print_skip)
      as [st|] eqn:Hloop;
      [|unfold solve_model in Hret; rewrite Hloop in Hret; discriminate].
    rewrite (solve_model_after_loop _ _ _ _ _ _ st Hloop) in Hret.
    destruct (solve_loop_sound brentq ifp tol (S cap) verbose print_skip st
                ltac:(lia) Hloop) as (Hn & _ & Hit & _).
    rewrite Hn in Hret. inversion Hret; subst. clear Hret.
    inversion Hit as [c0 c1 e Hinit HK Hd | n c' e c1 e' Hprev _ _ HK Hd].
    + exists c0.
      assert (Hshape : has_shape (length (IFP.a_grid ifp)) c0).
      { rewrite c_init_eq in Hinit. inversion Hinit. apply c_init_shape. }
      split; [exact Hshape|]. split; [exact HK|].
      exact (proj2 (K_ok_inv _ _ _ _ Hshape HK)).
    + exists c'.
      pose proof (proj1 (Iterating_shape _ _ _ _ _ _ _ Hprev)) as Hshape.
      split; [exact Hshape|]. split; [exact HK|].
      exact (proj2 (K_ok_inv _ _ _ _ Hshape HK)).
Qed.

Lemma solve_model_returns_last_sweep_witness :
  exists prev,
    has_shape (length (IFP.a_grid ifp_two_states)) prev
    /\ K lower_end prev ifp_two_states = Ok c_vec_floor
    /\ forall i z,
         (i < length (IFP.a_grid ifp_two_states))%nat -> (z < 2)%nat ->
         lower_end
           (fun t => euler_diff t prev
                       (nth i (IFP.a_grid ifp_two_states) 0) z
                       ifp_two_states)
           1e-10 (nth i (IFP.a_grid ifp_two_states) 0) 12%nat
         = Ok (getitem2 c_vec_floor i z).
Proof.
  apply (solve_model_returns_last_sweep lower_end ifp_two_states 1 1 false 4
           c_vec_floor [FailedToConverge]).
  unfold solve_model.
  rewrite (solve_loop_one_pass lower_end ifp_two_states 1 4 c_vec_all
             c_vec_floor floor_distance); reflexivity.
Defined.

(** X21 -- A session that constructs the model with [grid_size = 0] and
    solves it with a cap of at least 1 ends in [ValueError] raised inside
    [solve_model], not at construction; the root finder is never called. *)
Theorem construct_and_solve_empty_grid brentq seeded g γ β P σ_vec s
    shock_draw_size grid_max tol max_iter verbose print_skip :
  (0 <= shock_draw_size)%Z ->
  (1 <= max_iter)%nat ->
  (exists ifp g',
     IFP.__init__ seeded g γ β P σ_vec s shock_draw_size grid_max 0
     = Ok (ifp, g') /\ IFP.a_grid ifp = [])
  /\ construct_and_solve brentq seeded g γ β P σ_vec s shock_draw_size
       grid_max 0 tol max_iter verbose print_skip
     = Raise ValueError.
Proof.
  intros Hsize Hcap.
  destruct (proj2 (init_succeeds_iff seeded g γ β P σ_vec s shock_draw_size
                     grid_max 0) (conj Hsize (Z.le_refl 0)))
    as (ifp & g' & Hinit).
  assert (Hgrid : IFP.a_grid ifp = []).
  { destruct (init_inv _ _ _ _ _ _ _ _ _ _ _ _ Hinit)
      as (_ & _ & _ & _ & _ & Hlin & _).
    apply linspace_length in Hlin. now apply length_zero_iff_nil. }
  split; [now exists ifp, g'|].
  unfold construct_and_solve. rewrite Hinit. cbn [bind].
  now rewrite (solve_model_on_empty_grid brentq ifp tol max_iter
                 verbose print_skip Hgrid Hcap).
Qed.

Lemma construct_and_solve_empty_grid_witness :
  (exists ifp g',
     IFP.__init__ counting_rng (fun _ => 0) default_γ default_β default_P
       default_σ_vec default_s default_shock_draw_size default_grid_max 0
     = Ok (ifp, g') /\ IFP.a_grid ifp = [])
  /\ construct_and_solve no_bracket counting_rng (fun _ => 0) default_γ
       default_β default_P default_σ_vec default_s default_shock_draw_size
       default_grid_max 0 (1 / 1000) 100 true 4
     = Raise ValueError.
Proof.
  apply (construct_and_solve_empty_grid no_bracket counting_rng (fun _ => 0)
           default_γ default_β default_P default_σ_vec default_s
           default_shock_draw_size default_grid_max (1 / 1000) 100 true 4).
  - unfold default_shock_draw_size. lia.
  - lia.
Defined.
